(** * Sequence Locator: the strict chain follower and the global hunter

    A shallow embedding of the search core of [run.py]
    ([_find_strict_sequence_from_path] and [find_target_sequence_globally])
    together with the properties stated about it.

    The two functions only ever talk to the repository through
    [repo.get_contents(path)], which either hands back the entries of a
    directory or raises.  A repository is therefore a function from a path
    to a listing outcome.  Python exceptions are explicit results, the
    [try]/[except] blocks are an explicit [try_except], and every call of
    [get_contents] is written to a log, so that statements such as
    "performs no directory listing" are statements about the log. *)

From Stdlib Require Import List Ascii String Bool Arith ZArith Lia.
Import ListNotations.
Local Open Scope string_scope.
Local Open Scope list_scope.
Set Warnings "-register-all".

(** ** Data model *)

(** An entry of a directory listing (PyGithub's [ContentFile]), reduced to
    the three attributes the search reads. *)
Record ContentFile : Type := mkContentFile {
  name : string;
  type : string;
  path : string
}.

(** The exceptions the code distinguishes: [GithubException] carries the
    HTTP status ([404] is "path absent"), every other [Exception] is
    [OtherException]. *)
Inductive exn : Type :=
| GithubException (status : Z)
| OtherException.

(** What [repo.get_contents(p)] does: return the entries or raise. *)
Inductive listing : Type :=
| Entries (contents : list ContentFile)
| Fault (e : exn).

Definition Repo : Type := string -> listing.

(** ** A small monad for the Python control flow

    A computation ends in a value, in a raised exception or, for the
    recursive hunter only, by exhausting the recursion budget of the model.
    Beside that it produces the list of paths given to [get_contents], in
    call order. *)
Inductive res (A : Type) : Type :=
| Ok (a : A)
| Err (e : exn)
| OutOfFuel.
Arguments Ok {A} a.
Arguments Err {A} e.
Arguments OutOfFuel {A}.

Definition Py (A : Type) : Type := (res A * list string)%type.

Definition value {A} (m : Py A) : res A := fst m.
Definition listed {A} (m : Py A) : list string := snd m.

Definition ret {A} (a : A) : Py A := (Ok a, []).

Definition bind {A B} (m : Py A) (f : A -> Py B) : Py B :=
  match m with
  | (Ok a, l) => let (r, l') := f a in (r, l ++ l')
  | (Err e, l) => (Err e, l)
  | (OutOfFuel, l) => (OutOfFuel, l)
  end.

(** [try: m except: h] catches every exception ([except GithubException]
    followed by [except Exception]); running out of budget is not a Python
    exception and passes through. *)
Definition try_except {A} (m : Py A) (h : exn -> Py A) : Py A :=
  match m with
  | (Err e, l) => let (r, l') := h e in (r, l ++ l')
  | other => other
  end.

Notation "x <- m ;; k" := (bind m (fun x => k))
  (at level 61, m at next level, right associativity).

Definition get_contents (repo : Repo) (p : string) : Py (list ContentFile) :=
  match repo p with
  | Entries contents => (Ok contents, [p])
  | Fault e => (Err e, [p])
  end.

(** The two tests the loops make on an entry. *)
Definition is_dir (item : ContentFile) : bool := String.eqb (type item) "dir".

Definition dir_named (segment_name : string) (item : ContentFile) : bool :=
  is_dir item && String.eqb (name item) segment_name.

(** Python truth value of a result that is [None] or a string:
    [None] and the empty string are false. *)
Definition truthy (r : option string) : bool :=
  match r with
  | None => false
  | Some s => negb (String.eqb s "")
  end.

(** ** The strict chain follower *)

(** The inner [for item in contents] of the follower: the first directory
    entry with the wanted name ([break]), or nothing ([found_next_segment]
    stays [False]). *)
Fixpoint scan_contents (segment_name : string) (contents : list ContentFile)
  : option ContentFile :=
  match contents with
  | [] => None
  | item :: rest =>
      if dir_named segment_name item then Some item
      else scan_contents segment_name rest
  end.

(** One pass of the [try] block: [Some p] continues the outer loop with
    [current_path_being_built = p], [None] is [return None]. *)
Definition follow_step (repo : Repo) (segment_name current : string)
  : Py (option string) :=
  try_except
    (contents <- get_contents repo current ;;
     match scan_contents segment_name contents with
     | Some item => ret (Some (path item))
     | None => ret None
     end)
    (fun e =>
       match e with
       | GithubException status =>
           if Z.eqb status 404 then ret None else ret None
       | OtherException => ret None
       end).

(** [_find_strict_sequence_from_path(repo, segments, base_path)]; the
    mutable [current_path_being_built] is the last argument. *)
Fixpoint _find_strict_sequence_from_path (repo : Repo) (segments : list string)
  (base_path : string) : Py (option string) :=
  match segments with
  | [] => ret (Some base_path)
  | segment_name :: rest =>
      next <- follow_step repo segment_name base_path ;;
      match next with
      | Some p => _find_strict_sequence_from_path repo rest p
      | None => ret None
      end
  end.

(** ** The global hunter *)

(** Stage 1, the first [for item in contents].  [Some p] means the function
    returns [p] from inside the loop, [None] means the loop ran to its end. *)
Fixpoint stage1 (repo : Repo) (first_segment_name : string)
  (remaining_segments : list string) (contents : list ContentFile)
  : Py (option string) :=
  match contents with
  | [] => ret None
  | item :: rest =>
      if dir_named first_segment_name item then
        match remaining_segments with
        | [] => ret (Some (path item))
        | _ :: _ =>
            path_to_end_of_sequence <-
              _find_strict_sequence_from_path repo remaining_segments (path item) ;;
            if truthy path_to_end_of_sequence
            then ret path_to_end_of_sequence
            else stage1 repo first_segment_name remaining_segments rest
        end
      else stage1 repo first_segment_name remaining_segments rest
  end.

(** Stage 2, the second [for item in contents]; [recur] is the recursive
    call on the whole sequence.  The value is what the function returns. *)
Fixpoint stage2 (recur : string -> Py (option string))
  (contents : list ContentFile) : Py (option string) :=
  match contents with
  | [] => ret None
  | item :: rest =>
      if is_dir item then
        found_path_in_subdir <- recur (path item) ;;
        if truthy found_path_in_subdir
        then ret found_path_in_subdir
        else stage2 recur rest
      else stage2 recur rest
  end.

(** [find_target_sequence_globally(repo, segments_to_find, search_root_path)].
    [fuel] bounds the depth of the recursion through Stage 2. *)
Fixpoint find_target_sequence_globally (fuel : nat) (repo : Repo)
  (segments_to_find : list string) (search_root_path : string)
  : Py (option string) :=
  match fuel with
  | O => (OutOfFuel, [])
  | S fuel' =>
      match segments_to_find with
      | [] => ret None
      | first_segment_name :: remaining_segments =>
          fetched <-
            try_except
              (contents <- get_contents repo search_root_path ;;
               ret (Some contents))
              (fun e =>
                 match e with
                 | GithubException status =>
                     if Z.eqb status 404 then ret None else ret None
                 | OtherException => ret None
                 end) ;;
          match fetched with
          | None => ret None
          | Some contents =>
              direct <-
                stage1 repo first_segment_name remaining_segments contents ;;
              match direct with
              | Some p => ret (Some p)
              | None =>
                  stage2
                    (find_target_sequence_globally fuel' repo segments_to_find)
                    contents
              end
          end
      end
  end.

(** The entry point: the hunter with the default [search_root_path=""]. *)
Definition locateSequence (fuel : nat) (repo : Repo)
  (segment_sequence : list string) : Py (option string) :=
  find_target_sequence_globally fuel repo segment_sequence "".

(** Whether a search call came back with a usable path: the test
    [if path_to_end_of_sequence:] / [if found_path_in_subdir:] applied to
    the value of a call. *)
Definition succeeded (m : Py (option string)) : bool :=
  match value m with
  | Ok r => truthy r
  | _ => false
  end.

(** [after l m]: the computation [m] carried out once the listings [l]
    have been made. *)
Definition after {A} (l : list string) (m : Py A) : Py A :=
  (value m, l ++ listed m).

(** ** Finite directory trees

    A node is an entry together with the entries found below it.  Paths are
    whatever the forge reports in the entries; the search never takes a path
    apart, it only hands [item.path] back to [get_contents]. *)
Inductive Tree : Type :=
| Node (item : ContentFile) (children : list Tree).

Definition entry (t : Tree) : ContentFile := let (item, _) := t in item.
Definition kids (t : Tree) : list Tree := let (_, children) := t in children.

Fixpoint height (t : Tree) : nat :=
  match t with
  | Node _ children => S (fold_right Nat.max 0 (map height children))
  end.

Definition forest_height (ts : list Tree) : nat :=
  fold_right Nat.max 0 (map height ts).

(** [serves repo root ts]: listing [root] gives the entries of [ts], and
    every directory among them again lists as its own children, all the way
    down.  The repository seen from [root] is then the finite tree [ts]. *)
Inductive serves (repo : Repo) : string -> list Tree -> Prop :=
| serves_dir (root : string) (ts : list Tree) :
    repo root = Entries (map entry ts) ->
    (forall t, In t ts -> is_dir (entry t) = true ->
               serves repo (path (entry t)) (kids t)) ->
    serves repo root ts.

(** All directory nodes of a forest that are reachable through directories. *)
Fixpoint tree_dirs (t : Tree) : list ContentFile :=
  match t with
  | Node item children =>
      if is_dir item then item :: flat_map tree_dirs children else []
  end.

Definition dirs (ts : list Tree) : list ContentFile := flat_map tree_dirs ts.

(** Well-formedness of a tree as a forge presents it: no entry has the
    path of the root (the empty string), and the directories listed in one
    directory have distinct names. *)
Fixpoint distinct (l : list string) : bool :=
  match l with
  | [] => true
  | x :: rest => negb (existsb (String.eqb x) rest) && distinct rest
  end.

Definition dir_names (ts : list Tree) : list string :=
  map name (filter is_dir (map entry ts)).

Fixpoint paths_nonempty (t : Tree) : bool :=
  match t with
  | Node item children =>
      negb (String.eqb (path item) "") && forallb paths_nonempty children
  end.

Fixpoint names_distinct (t : Tree) : bool :=
  match t with
  | Node _ children =>
      distinct (map name (filter is_dir (map entry children)))
      && forallb names_distinct children
  end.

Definition well_formed (ts : list Tree) : bool :=
  forallb paths_nonempty ts && distinct (dir_names ts)
  && forallb names_distinct ts.

(** ** Occurrences of a segment sequence in a tree

    [chain_ends segs t]: the paths at which the sequence [segs] ends when it
    starts at node [t] itself, each segment a directory directly inside the
    previous one. *)
Fixpoint chain_ends (segs : list string) (t : Tree) : list string :=
  match segs with
  | [] => []
  | s :: rest =>
      if dir_named s (entry t) then
        match rest with
        | [] => [path (entry t)]
        | _ :: _ => flat_map (chain_ends rest) (kids t)
        end
      else []
  end.

(** The complete occurrences of [segs] below a directory, each with the
    depth of the node that completes it, in the order of Section 4.2: the
    chains that start at a direct child first, then child directory by
    child directory.  [occurrences_in segs d t] are those below the node
    [t], which lies at depth [d]; [occurrences segs ts] those of the whole
    forest [ts], whose nodes are the children of the search root and lie at
    depth 1. *)
Fixpoint occurrences_in (segs : list string) (d : nat) (t : Tree)
  : list (nat * string) :=
  match t with
  | Node item children =>
      if is_dir item then
        map (pair (d + List.length segs)) (flat_map (chain_ends segs) children)
        ++ flat_map (occurrences_in segs (S d)) children
      else []
  end.

Definition occurrences (segs : list string) (ts : list Tree)
  : list (nat * string) :=
  map (pair (List.length segs)) (flat_map (chain_ends segs) ts)
  ++ flat_map (occurrences_in segs 1) ts.

Definition first_occurrence (segs : list string) (ts : list Tree)
  : option string :=
  head (map snd (occurrences segs ts)).

(** [produced repo log r]: the path [r] is the [path] attribute of a
    directory entry in the listing of one of the paths of [log]. *)
Definition produced (repo : Repo) (log : list string) (r : string) : Prop :=
  exists q items item,
    In q log /\ repo q = Entries items /\ In item items
    /\ is_dir item = true /\ path item = r.

(** ** What the search can see of a repository

    [dir_view repo p]: the directory entries of the listing of [p], and no
    entry at all when the listing faults. *)
Definition dir_view (repo : Repo) (p : string) : list ContentFile :=
  match repo p with
  | Entries contents => filter is_dir contents
  | Fault _ => []
  end.

(** The repository in which every path that cannot be listed is an empty
    directory instead. *)
Definition fault_as_empty (repo : Repo) : Repo :=
  fun p =>
    match repo p with
    | Entries contents => Entries contents
    | Fault _ => Entries []
    end.

(** The repository with everything but the directories taken out of its
    listings. *)
Definition only_dirs (repo : Repo) : Repo :=
  fun p =>
    match repo p with
    | Entries contents => Entries (filter is_dir contents)
    | Fault e => Fault e
    end.

(** [produced_named repo log n r]: [r] is the [path] of a directory entry
    named [n] in the listing of one of the paths of [log]. *)
Definition produced_named (repo : Repo) (log : list string) (n r : string)
  : Prop :=
  exists q items item,
    In q log /\ repo q = Entries items /\ In item items
    /\ dir_named n item = true /\ path item = r.

(** ** Configuration *)

Definition ORGANIZATION_NAME : string := "YUNG-GANG".
Definition TARGET_PATH_SEGMENTS : list string := ["resources"; "data"].

(** ** The token

    What [get_github_token] finds around it: the token file (absent,
    present but failing to open or read, or present with the text that
    [f.readline()] returns) and the environment variable [GITHUB_PAT]. *)
Inductive token_file : Type :=
| Absent
| Unreadable
| FirstLine (line : string).

Record Surroundings : Type := mkSurroundings {
  token_file_state : token_file;
  GITHUB_PAT : option string
}.

(** The lines [get_github_token] prints, one constructor per [print]. *)
Inductive notice : Type :=
| UsingTokenFromFile
| TokenFileEmpty
| ErrorReadingTokenFile
| UsingTokenFromEnvironment
| NoTokenFound.

Section Token.

(** [str.strip()], taken as it is: the function goes through for any
    way of trimming a line. *)
Variable strip : string -> string.

(** The [try] block: the token it returns from the file, if any, and
    what it printed. *)
Definition token_from_file (w : Surroundings) : option string * list notice :=
  match token_file_state w with
  | Absent => (None, [])
  | Unreadable => (None, [ErrorReadingTokenFile])
  | FirstLine line =>
      let token := strip line in
      if truthy (Some token) then (Some token, [UsingTokenFromFile])
      else (None, [TokenFileEmpty])
  end.

Definition get_github_token (w : Surroundings) : option string * list notice :=
  match token_from_file w with
  | (Some token, out) => (Some token, out)
  | (None, out) =>
      let token := GITHUB_PAT w in
      if truthy token then (token, out ++ [UsingTokenFromEnvironment])
      else (None, out ++ [NoTokenFound])
  end.

End Token.

(** ** The repository name given on the command line *)

(** ["/" in s]. *)
Fixpoint has_slash (s : string) : bool :=
  match s with
  | EmptyString => false
  | String c rest => Ascii.eqb c "/"%char || has_slash rest
  end.

(** [target_repo_full_name] as [main] builds it from [args.repo_name]. *)
Definition target_repo_full_name (repo_name : string) : string :=
  if negb (has_slash repo_name)
  then ORGANIZATION_NAME ++ "/" ++ repo_name
  else repo_name.

(** ** The scan of [main]

    A repository object: its two names and its listing operation. *)
Record Repository : Type := mkRepository {
  repo_name : string;
  full_name : string;
  repo_contents : Repo
}.

(** The lines the scan prints, one constructor per [print], with the
    values each line shows.  [Processing] carries the progress prefix:
    the pair [processed_repo_count/repo_count], or nothing when
    [repo_count] is 0. *)
Inductive printed : Type :=
| Processing (progress_prefix : option (nat * nat)) (repo_full_name : string)
| FoundAt (target_folder_full_path : string)
| NoSubdirectories (target_folder_full_path : string)
| PathVanished (target_folder_full_path : string)
| AccessError (target_folder_full_path : string) (name_of_repo : string)
    (status : Z)
| UnexpectedAccessError (target_folder_full_path : string)
    (name_of_repo : string)
| SkippingGithubError (name_of_repo : string) (status : Z)
| SkippingUnexpectedError (name_of_repo : string).

(** [all_found_subfolder_names.add(n)], the set kept as a list in which
    no name is repeated. *)
Definition add_name (n : string) (names : list string) : list string :=
  if existsb (String.eqb n) names then names else names ++ [n].

(** The loop over [data_dir_contents]: the set and the flag
    [found_in_this_repo] after it. *)
Fixpoint collect_subfolders (items : list ContentFile) (names : list string)
  (found_in_this_repo : bool) : list string * bool :=
  match items with
  | [] => (names, found_in_this_repo)
  | item :: rest =>
      if is_dir item
      then collect_subfolders rest (add_name (name item) names) true
      else collect_subfolders rest names found_in_this_repo
  end.

(** The inner [try]: list the folder that was found and collect the names
    of its sub-folders; a failing listing is reported. *)
Definition list_target (r : Repository) (target_folder_full_path : string)
  (names : list string) : list string * list printed :=
  match repo_contents r target_folder_full_path with
  | Entries data_dir_contents =>
      let (names', found_in_this_repo) :=
        collect_subfolders data_dir_contents names false in
      (names',
       if found_in_this_repo then []
       else [NoSubdirectories target_folder_full_path])
  | Fault (GithubException status) =>
      (names,
       [if Z.eqb status 404 then PathVanished target_folder_full_path
        else AccessError target_folder_full_path (repo_name r) status])
  | Fault OtherException =>
      (names, [UnexpectedAccessError target_folder_full_path (repo_name r)])
  end.

(** The outer [try] of the loop body, for one repository: the search and,
    when it found a path, the listing of that path.  [None] when the
    search used up the recursion budget. *)
Definition scan_repo (fuel : nat) (r : Repository) (names : list string)
  : option (list string * list printed) :=
  match
    value (find_target_sequence_globally fuel (repo_contents r)
             TARGET_PATH_SEGMENTS "")
  with
  | Ok target_folder_full_path =>
      match target_folder_full_path with
      | Some p =>
          if truthy target_folder_full_path then
            let (names', out) := list_target r p names in
            Some (names', FoundAt p :: out)
          else Some (names, [])
      | None => Some (names, [])
      end
  | Err (GithubException status) =>
      Some (names, [SkippingGithubError (repo_name r) status])
  | Err OtherException => Some (names, [SkippingUnexpectedError (repo_name r)])
  | OutOfFuel => None
  end.

(** [for repo in repos_to_scan], with the counter
    [processed_repo_count] and the set threaded through. *)
Fixpoint scan_repos (fuel : nat) (repo_count : nat)
  (repos_to_scan : list Repository) (processed_repo_count : nat)
  (names : list string) : option (list string * list printed) :=
  match repos_to_scan with
  | [] => Some (names, [])
  | r :: rest =>
      let processed_repo_count := S processed_repo_count in
      let progress_prefix :=
        if Nat.ltb 0 repo_count then Some (processed_repo_count, repo_count)
        else None in
      match scan_repo fuel r names with
      | None => None
      | Some (names1, out1) =>
          match scan_repos fuel repo_count rest processed_repo_count names1 with
          | None => None
          | Some (names2, out2) =>
              Some (names2,
                    Processing progress_prefix (full_name r) :: out1 ++ out2)
          end
      end
  end.

(** What a repository adds to the set: [n] is the name of a directory
    entry in the listing of the path the search returned. *)
Definition contributes (fuel : nat) (r : Repository) (n : string) : Prop :=
  exists p items item,
    value (find_target_sequence_globally fuel (repo_contents r)
             TARGET_PATH_SEGMENTS "") = Ok (Some p)
    /\ p <> ""
    /\ repo_contents r p = Entries items
    /\ In item items /\ is_dir item = true /\ name item = n.

(** The [Processing] lines among the printed ones. *)
Definition is_processing (l : printed) : bool :=
  match l with
  | Processing _ _ => true
  | _ => false
  end.

(** The repositories named by the [Processing] lines, in print order. *)
Definition processed_names (out : list printed) : list string :=
  flat_map (fun l => match l with
                     | Processing _ n => [n]
                     | _ => []
                     end) out.

(** The two lines of the outer [except] clauses. *)
Definition is_skipping (l : printed) : bool :=
  match l with
  | SkippingGithubError _ _ | SkippingUnexpectedError _ => true
  | _ => false
  end.


(** ** An in-memory repository

    The repository that presents a given forest: the root is the empty
    path, a directory node is found by its path, anything else is absent
    (status 404). *)
Fixpoint lookup (p : string) (t : Tree) : option (list Tree) :=
  match t with
  | Node item children =>
      if is_dir item then
        if String.eqb (path item) p then Some children
        else
          (fix among (ks : list Tree) : option (list Tree) :=
             match ks with
             | [] => None
             | k :: ks' =>
                 match lookup p k with
                 | Some found => Some found
                 | None => among ks'
                 end
             end) children
      else None
  end.

Fixpoint lookup_forest (p : string) (ts : list Tree) : option (list Tree) :=
  match ts with
  | [] => None
  | t :: ts' =>
      match lookup p t with
      | Some found => Some found
      | None => lookup_forest p ts'
      end
  end.

Definition repo_of (ts : list Tree) : Repo :=
  fun p =>
    if String.eqb p "" then Entries (map entry ts)
    else
      match lookup_forest p ts with
      | Some children => Entries (map entry children)
      | None => Fault (GithubException 404)
      end.

Definition dir (n p : string) : ContentFile := mkContentFile n "dir" p.
Definition file (n p : string) : ContentFile := mkContentFile n "file" p.

(** [lib/resources/data] with two sub-folders and a file beside them. *)
Definition resources_tree : list Tree :=
  [ Node (file "README.md" "README.md") [];
    Node (dir "lib" "lib")
      [ Node (dir "resources" "lib/resources")
          [ Node (file "pack.mcmeta" "lib/resources/pack.mcmeta") [];
            Node (dir "data" "lib/resources/data")
              [ Node (dir "textures" "lib/resources/data/textures") [];
                Node (dir "sounds" "lib/resources/data/sounds") [] ] ] ] ].

(** The sequence [a/b] twice: at depth 4 under the first top-level
    directory and at depth 3 under the second. *)
Definition two_depths_tree : list Tree :=
  [ Node (dir "x" "x")
      [ Node (dir "z" "x/z")
          [ Node (dir "a" "x/z/a")
              [ Node (dir "b" "x/z/a/b") [] ] ] ];
    Node (dir "y" "y")
      [ Node (dir "a" "y/a")
          [ Node (dir "b" "y/a/b") [] ] ] ].

(** Two entries of one listing with the same name [a]: the first is a dead
    end, the second contains [b].  A forge does not produce this, a fake
    listing can. *)
Definition twin_tree : list Tree :=
  [ Node (dir "a" "first/a") [ Node (dir "c" "first/a/c") [] ];
    Node (dir "a" "second/a") [ Node (dir "b" "second/a/b") [] ] ].

(** A repository whose root cannot be listed (rate limit, status 403). *)
Definition forbidden_repo : Repo := fun _ => Fault (GithubException 403).

(** A fake listing that reports, inside [x], a directory [a] under the
    empty path, the path of the root.  No tree does this. *)
Definition rootlike_entry_repo : Repo :=
  fun p =>
    if String.eqb p "" then Entries [dir "x" "x"]
    else if String.eqb p "x" then Entries [dir "a" ""]
    else Fault (GithubException 404).

(** A repository object for a tree held in memory. *)
Definition repository_of (n : string) (ts : list Tree) : Repository :=
  mkRepository n (ORGANIZATION_NAME ++ "/" ++ n) (repo_of ts).

(** Proof step for [serves] on a repository given by an explicit tree:
    one listing per directory node. *)
Ltac serve :=
  repeat (constructor;
          [ reflexivity
          | let t := fresh "t" in
            let H := fresh "H" in
            let Hd := fresh "Hd" in
            cbn [In]; intros t H Hd;
            repeat (destruct H as [<-|H];
                    [try discriminate Hd; cbn [entry kids path dir file]|]);
            try contradiction ]).

(** * Properties *)

(** ** The monad *)

Lemma bind_ok {A B} (a : A) (l : list string) (f : A -> Py B) :
  bind (Ok a, l) f = (value (f a), l ++ listed (f a)).
Proof. unfold bind, value, listed. now destruct (f a). Qed.

Lemma bind_ret {A B} (a : A) (f : A -> Py B) : bind (ret a) f = f a.
Proof. unfold ret. rewrite bind_ok. now destruct (f a). Qed.

Lemma value_bind {A B} (m : Py A) (f : A -> Py B) :
  value (bind m f) =
  match value m with
  | Ok a => value (f a)
  | Err e => Err e
  | OutOfFuel => OutOfFuel
  end.
Proof.
  destruct m as [[a|e|] l]; cbn [value fst]; try reflexivity.
  now rewrite bind_ok.
Qed.

Lemma listed_bind {A B} (m : Py A) (f : A -> Py B) :
  listed (bind m f) =
  listed m ++ match value m with Ok a => listed (f a) | _ => [] end.
Proof.
  destruct m as [[a|e|] l]; cbn [value fst listed snd bind];
    try now rewrite app_nil_r.
  now destruct (f a).
Qed.

Lemma py_eta {A} (m : Py A) : m = (value m, listed m).
Proof. now destruct m. Qed.

(** ** The follower *)

Lemma follow_step_eq (repo : Repo) (s cur : string) :
  follow_step repo s cur =
  (Ok match repo cur with
      | Entries contents => option_map path (scan_contents s contents)
      | Fault _ => None
      end, [cur]).
Proof.
  unfold follow_step, get_contents.
  destruct (repo cur) as [contents|e]; cbn.
  - now destruct (scan_contents s contents).
  - destruct e as [status|]; [destruct (Z.eqb status 404)|]; reflexivity.
Qed.

Lemma follower_cons (repo : Repo) (s : string) (rest : list string)
  (base : string) :
  _find_strict_sequence_from_path repo (s :: rest) base =
  match repo base with
  | Entries contents =>
      match scan_contents s contents with
      | Some item =>
          (value (_find_strict_sequence_from_path repo rest (path item)),
           base :: listed (_find_strict_sequence_from_path repo rest (path item)))
      | None => (Ok None, [base])
      end
  | Fault _ => (Ok None, [base])
  end.
Proof.
  cbn [_find_strict_sequence_from_path]. rewrite follow_step_eq, bind_ok.
  destruct (repo base) as [contents|e]; [|reflexivity].
  destruct (scan_contents s contents); reflexivity.
Qed.

Lemma follower_returns (repo : Repo) (segs : list string) :
  forall base, exists r,
    value (_find_strict_sequence_from_path repo segs base) = Ok r.
Proof.
  induction segs as [|s rest IH]; intros base.
  - now exists (Some base).
  - rewrite follower_cons.
    destruct (repo base) as [contents|e]; [|now exists None].
    destruct (scan_contents s contents) as [item|]; [|now exists None].
    apply IH.
Qed.

(** ** The two stages of the hunter *)

Lemma stage1_cons (repo : Repo) (s : string) (rest : list string)
  (item : ContentFile) (items : list ContentFile) :
  stage1 repo s rest (item :: items) =
  if dir_named s item then
    match rest with
    | [] => (Ok (Some (path item)), [])
    | _ :: _ =>
        let m := _find_strict_sequence_from_path repo rest (path item) in
        if succeeded m then m
        else after (listed m) (stage1 repo s rest items)
    end
  else stage1 repo s rest items.
Proof.
  cbn [stage1]. destruct (dir_named s item); [|reflexivity].
  destruct rest as [|s' rest']; [reflexivity|].
  cbv zeta. unfold succeeded.
  destruct (follower_returns repo (s' :: rest') (path item)) as [r Hr].
  rewrite (py_eta (_find_strict_sequence_from_path _ _ _)) at 1.
  rewrite Hr, bind_ok.
  destruct (truthy r).
  - cbn [ret value fst listed snd]. rewrite app_nil_r.
    rewrite <- Hr. symmetry. apply py_eta.
  - reflexivity.
Qed.

Lemma stage1_returns (repo : Repo) (s : string) (rest : list string)
  (items : list ContentFile) :
  exists r, value (stage1 repo s rest items) = Ok r.
Proof.
  induction items as [|item items IH].
  - now exists None.
  - rewrite stage1_cons. destruct (dir_named s item); [|exact IH].
    destruct rest as [|s' rest']; [now eexists|].
    cbv zeta. destruct (succeeded _); [apply follower_returns|exact IH].
Qed.

Lemma stage2_cons (recur : string -> Py (option string))
  (item : ContentFile) (items : list ContentFile) :
  stage2 recur (item :: items) =
  if is_dir item then
    match value (recur (path item)) with
    | Ok r =>
        if truthy r then recur (path item)
        else after (listed (recur (path item))) (stage2 recur items)
    | _ => recur (path item)
    end
  else stage2 recur items.
Proof.
  cbn [stage2]. destruct (is_dir item); [|reflexivity].
  destruct (recur (path item)) as [[r|e|] l]; cbn [value fst]; try reflexivity.
  rewrite bind_ok. destruct (truthy r); [|reflexivity].
  cbn [ret value fst listed snd]. now rewrite app_nil_r.
Qed.

Lemma hunter_nil (fuel : nat) (repo : Repo) (root : string) :
  find_target_sequence_globally (S fuel) repo [] root = (Ok None, []).
Proof. reflexivity. Qed.

Lemma hunter_fault (fuel : nat) (repo : Repo) (s : string)
  (rest : list string) (root : string) (e : exn) :
  repo root = Fault e ->
  find_target_sequence_globally (S fuel) repo (s :: rest) root
  = (Ok None, [root]).
Proof.
  intros H. cbn [find_target_sequence_globally]. unfold get_contents.
  rewrite H. cbn.
  destruct e as [status|]; [destruct (Z.eqb status 404)|]; reflexivity.
Qed.

Lemma hunter_entries (fuel : nat) (repo : Repo) (s : string)
  (rest : list string) (root : string) (contents : list ContentFile) :
  repo root = Entries contents ->
  find_target_sequence_globally (S fuel) repo (s :: rest) root =
  after [root]
    match value (stage1 repo s rest contents) with
    | Ok None =>
        after (listed (stage1 repo s rest contents))
          (stage2 (find_target_sequence_globally fuel repo (s :: rest))
             contents)
    | _ => stage1 repo s rest contents
    end.
Proof.
  intros H. cbn [find_target_sequence_globally]. unfold get_contents.
  rewrite H. cbn [bind try_except ret app].
  destruct (stage1_returns repo s rest contents) as [r Hr].
  rewrite Hr.
  rewrite (py_eta (stage1 repo s rest contents)) at 1. rewrite Hr.
  destruct r as [p|]; cbn [bind ret]; unfold after; cbn [value fst listed snd app].
  - now rewrite Hr, !app_nil_r.
  - now destruct (stage2 _ contents).
Qed.

Lemma after_nil {A} (m : Py A) : after [] m = m.
Proof. unfold after. cbn [app]. symmetry. apply py_eta. Qed.

Lemma after_after {A} (l l' : list string) (m : Py A) :
  after l (after l' m) = after (l ++ l') m.
Proof. unfold after. cbn [value fst listed snd]. now rewrite app_assoc. Qed.

Lemma value_after {A} (l : list string) (m : Py A) :
  value (after l m) = value m.
Proof. reflexivity. Qed.

Lemma listed_after {A} (l : list string) (m : Py A) :
  listed (after l m) = l ++ listed m.
Proof. reflexivity. Qed.

Lemma scan_contents_first (seg : string) (before : list ContentFile)
  (item : ContentFile) (others : list ContentFile) :
  (forall x, In x before -> dir_named seg x = false) ->
  dir_named seg item = true ->
  scan_contents seg (before ++ item :: others) = Some item.
Proof.
  intros Hb Hi. induction before as [|x before IH]; cbn [app scan_contents].
  - now rewrite Hi.
  - rewrite (Hb x (or_introl eq_refl)). apply IH.
    intros y Hy. apply Hb. now right.
Qed.

Lemma scan_contents_some (s : string) (contents : list ContentFile)
  (item : ContentFile) :
  scan_contents s contents = Some item ->
  In item contents /\ dir_named s item = true.
Proof.
  induction contents as [|x contents IH]; [discriminate|].
  cbn [scan_contents]. destruct (dir_named s x) eqn:Hd.
  - intros [= <-]. split; [now left|exact Hd].
  - intros H. destruct (IH H) as [Hin Hn]. split; [now right|exact Hn].
Qed.

Lemma dir_named_iff (s : string) (item : ContentFile) :
  dir_named s item = true <-> is_dir item = true /\ name item = s.
Proof.
  unfold dir_named. rewrite andb_true_iff, String.eqb_eq. reflexivity.
Qed.

Lemma stage1_skip (repo : Repo) (s : string) (rest : list string)
  (before items : list ContentFile) :
  (forall x, In x before -> dir_named s x = false) ->
  stage1 repo s rest (before ++ items) = stage1 repo s rest items.
Proof.
  intros Hb. induction before as [|x before IH]; [reflexivity|].
  cbn [app]. rewrite stage1_cons, (Hb x (or_introl eq_refl)).
  apply IH. intros y Hy. apply Hb. now right.
Qed.

(** ** Claims about the code alone *)

(** C5. With no segment left to follow, the strict chain follower hands
    back the starting path as it is, and its log of directory listings is
    empty: [get_contents] is not called at all. *)
Theorem follower_empty_segments :
  forall (repo : Repo) (startingPath : string),
    _find_strict_sequence_from_path repo [] startingPath
    = (Ok (Some startingPath), []).
Proof. intros repo startingPath. reflexivity. Qed.

(** C9. Called with an empty segment sequence the hunter answers [None]
    at once: the value is a normal return (nothing is raised), and no path
    was given to [get_contents]. *)
Theorem hunter_empty_sequence :
  forall (fuel : nat) (repo : Repo) (search_root_path : string),
    value (find_target_sequence_globally (S fuel) repo [] search_root_path)
    = Ok None
    /\ listed (find_target_sequence_globally (S fuel) repo [] search_root_path)
       = []
    /\ locateSequence (S fuel) repo [] = (Ok None, []).
Proof. intros fuel repo root. repeat split. Qed.

(** C6. When the listing at the current path holds several directory
    entries with the name of the current segment, the follower goes on from
    the first of them in listing order: whatever comes behind the first
    match, the rest of the chain is followed from that entry's path, after
    the one listing of the current path. *)
Theorem follower_takes_first_match :
  forall (repo : Repo) (segment_name : string) (rest : list string)
         (current : string) (before : list ContentFile) (item : ContentFile)
         (behind : list ContentFile),
    repo current = Entries (before ++ item :: behind) ->
    (forall x, In x before -> dir_named segment_name x = false) ->
    dir_named segment_name item = true ->
    _find_strict_sequence_from_path repo (segment_name :: rest) current
    = after [current] (_find_strict_sequence_from_path repo rest (path item)).
Proof.
  intros repo seg rest current before item behind Hl Hb Hi.
  rewrite follower_cons, Hl, (scan_contents_first _ _ _ _ Hb Hi).
  reflexivity.
Qed.

Lemma follower_takes_first_match_witness :
  _find_strict_sequence_from_path (repo_of twin_tree) ["a"; "c"] ""
  = after [""] (_find_strict_sequence_from_path (repo_of twin_tree) ["c"]
                  "first/a")
  /\ value (_find_strict_sequence_from_path (repo_of twin_tree) ["a"; "c"] "")
     = Ok (Some "first/a/c").
Proof.
  split; [|reflexivity].
  apply (follower_takes_first_match (repo_of twin_tree) "a" ["c"] "" []
           (dir "a" "first/a") [dir "a" "second/a"]).
  - reflexivity.
  - intros x [].
  - reflexivity.
Defined.

Lemma stage2_no_raise (recur : string -> Py (option string))
  (items : list ContentFile) :
  (forall p, value (recur p) = OutOfFuel \/ exists r, value (recur p) = Ok r) ->
  value (stage2 recur items) = OutOfFuel
  \/ exists r, value (stage2 recur items) = Ok r.
Proof.
  intros Hrec. induction items as [|item items IH].
  - right. now exists None.
  - rewrite stage2_cons. destruct (is_dir item); [|exact IH].
    destruct (Hrec (path item)) as [H|[r H]]; rewrite H.
    + now left.
    + destruct (truthy r); [right; now exists r|].
      now rewrite value_after.
Qed.

Lemma hunter_no_raise (repo : Repo) (segs : list string) :
  forall (fuel : nat) (root : string),
    value (find_target_sequence_globally fuel repo segs root) = OutOfFuel
    \/ exists r,
         value (find_target_sequence_globally fuel repo segs root) = Ok r.
Proof.
  induction fuel as [|fuel IH]; intros root; [now left|].
  destruct segs as [|s rest]; [right; now exists None|].
  destruct (repo root) as [contents|e] eqn:Hroot.
  - rewrite (hunter_entries _ _ _ _ _ _ Hroot), value_after.
    destruct (stage1_returns repo s rest contents) as [r Hr]. rewrite Hr.
    destruct r as [p|]; [right; now exists (Some p)|].
    rewrite value_after. now apply stage2_no_raise.
  - rewrite (hunter_fault _ _ _ _ _ _ Hroot). right. now exists None.
Qed.

(** C3. Neither search lets a fault of a directory listing reach its
    caller.  For every repository: the follower always returns (a path or
    [None]); the hunter, as far as its recursion gets, returns too and never
    ends in an exception; and a listing that faults at the place where it
    is made, whatever the fault, turns into the answer [None] right there,
    after that one listing. *)
Theorem faults_never_escape :
  forall (repo : Repo),
    (forall segs base, exists r,
        value (_find_strict_sequence_from_path repo segs base) = Ok r)
    /\ (forall fuel segs root e,
           value (find_target_sequence_globally fuel repo segs root) <> Err e)
    /\ (forall fuel segs root,
           value (find_target_sequence_globally fuel repo segs root) = OutOfFuel
           \/ exists r,
                value (find_target_sequence_globally fuel repo segs root) = Ok r)
    /\ (forall s rest current e,
           repo current = Fault e ->
           _find_strict_sequence_from_path repo (s :: rest) current
           = (Ok None, [current]))
    /\ (forall fuel s rest root e,
           repo root = Fault e ->
           find_target_sequence_globally (S fuel) repo (s :: rest) root
           = (Ok None, [root])).
Proof.
  intros repo. repeat split.
  - intros segs base. apply follower_returns.
  - intros fuel segs root e H.
    destruct (hunter_no_raise repo segs fuel root) as [H'|[r H']];
      rewrite H in H'; discriminate.
  - intros fuel segs root. apply hunter_no_raise.
  - intros s rest current e H. now rewrite follower_cons, H.
  - intros fuel s rest root e H. now apply hunter_fault with e.
Qed.

(** C4. Two entries of one listing are directories named [S[0]]; the
    first listed does not lead to the rest of the sequence, the second
    does.  Then Stage 1 goes on past the first and returns the path
    completed through the second.  The hunter made exactly the listing of
    its root and the listings of the two chain attempts, and it needs no
    recursive call (a recursion budget of one call is enough), so Stage 2
    was not entered. *)
Theorem stage1_tries_second_sibling :
  forall (fuel : nat) (repo : Repo) (s0 s1 : string) (rest : list string)
         (root : string) (before : list ContentFile) (d1 : ContentFile)
         (between : list ContentFile) (d2 : ContentFile)
         (behind : list ContentFile) (p : string),
    repo root = Entries (before ++ d1 :: between ++ d2 :: behind) ->
    (forall x, In x (before ++ between) -> dir_named s0 x = false) ->
    dir_named s0 d1 = true ->
    dir_named s0 d2 = true ->
    succeeded (_find_strict_sequence_from_path repo (s1 :: rest) (path d1))
    = false ->
    value (_find_strict_sequence_from_path repo (s1 :: rest) (path d2))
    = Ok (Some p) ->
    p <> "" ->
    find_target_sequence_globally (S fuel) repo (s0 :: s1 :: rest) root
    = (Ok (Some p),
       root
       :: listed (_find_strict_sequence_from_path repo (s1 :: rest) (path d1))
       ++ listed (_find_strict_sequence_from_path repo (s1 :: rest) (path d2))).
Proof.
  intros fuel repo s0 s1 rest root before d1 between d2 behind p
         Hroot Hnone Hd1 Hd2 Hfail Hwin Hp.
  assert (Hs1 : stage1 repo s0 (s1 :: rest)
                  (before ++ d1 :: between ++ d2 :: behind)
                = after (listed (_find_strict_sequence_from_path repo
                                   (s1 :: rest) (path d1)))
                    (_find_strict_sequence_from_path repo (s1 :: rest)
                       (path d2))).
  { rewrite stage1_skip
      by (intros x Hx; apply Hnone, in_or_app; now left).
    rewrite stage1_cons, Hd1. cbv zeta. rewrite Hfail. f_equal.
    rewrite stage1_skip
      by (intros x Hx; apply Hnone, in_or_app; now right).
    rewrite stage1_cons, Hd2. cbv zeta.
    unfold succeeded. rewrite Hwin. cbn [truthy].
    destruct (String.eqb_spec p ""); [contradiction|reflexivity]. }
  rewrite (hunter_entries _ _ _ _ _ _ Hroot), Hs1, value_after, Hwin.
  unfold after. cbn [value fst listed snd app]. now rewrite Hwin.
Qed.

Lemma stage1_tries_second_sibling_witness :
  find_target_sequence_globally 1 (repo_of twin_tree) ["a"; "b"] ""
  = (Ok (Some "second/a/b"), [""; "first/a"; "second/a"]).
Proof.
  apply (stage1_tries_second_sibling 0 (repo_of twin_tree) "a" "b" [] ""
           [] (dir "a" "first/a") [] (dir "a" "second/a") [] "second/a/b").
  - reflexivity.
  - intros x [].
  - reflexivity.
  - reflexivity.
  - reflexivity.
  - reflexivity.
  - discriminate.
Defined.

(** ** Finite trees: heights, termination, independence of the budget *)

Lemma Tree_forall_ind (P : Tree -> Prop) :
  (forall item children, Forall P children -> P (Node item children)) ->
  forall t, P t.
Proof.
  intros H. fix IH 1. intros [item children]. apply H.
  induction children as [|k ks IHks]; constructor; [apply IH|exact IHks].
Qed.

Lemma height_kids (t : Tree) : height t = S (forest_height (kids t)).
Proof. now destruct t. Qed.

Lemma height_in (t : Tree) (ts : list Tree) :
  In t ts -> height t <= forest_height ts.
Proof.
  unfold forest_height. induction ts as [|u ts IH]; [intros []|].
  intros [->|H]; cbn [map fold_right]; [lia|].
  specialize (IH H). lia.
Qed.

Lemma kids_lower (t : Tree) (ts : list Tree) (n : nat) :
  In t ts -> forest_height ts < S n -> forest_height (kids t) < n.
Proof.
  intros Hin Hh. pose proof (height_in t ts Hin) as H.
  rewrite height_kids in H. lia.
Qed.

Lemma serves_listing (repo : Repo) (root : string) (ts : list Tree) :
  serves repo root ts -> repo root = Entries (map entry ts).
Proof. now intros [root' ts' H _]. Qed.

Lemma serves_kids (repo : Repo) (root : string) (ts : list Tree) (t : Tree) :
  serves repo root ts -> In t ts -> is_dir (entry t) = true ->
  serves repo (path (entry t)) (kids t).
Proof. intros [root' ts' _ H]. apply H. Qed.

Lemma stage2_ext (recur1 recur2 : string -> Py (option string))
  (items : list ContentFile) :
  (forall item, In item items -> is_dir item = true ->
                recur1 (path item) = recur2 (path item)) ->
  stage2 recur1 items = stage2 recur2 items.
Proof.
  induction items as [|item items IH]; intros H; [reflexivity|].
  rewrite !stage2_cons.
  rewrite IH by (intros x Hx; apply H; now right).
  destruct (is_dir item) eqn:Hd; [|reflexivity].
  now rewrite (H item (or_introl eq_refl) Hd).
Qed.

Lemma hunter_fuel_stable (repo : Repo) (segs : list string) :
  forall (fuel1 fuel2 : nat) (root : string) (ts : list Tree),
    serves repo root ts ->
    forest_height ts < fuel1 -> forest_height ts < fuel2 ->
    find_target_sequence_globally fuel1 repo segs root
    = find_target_sequence_globally fuel2 repo segs root.
Proof.
  induction fuel1 as [|fuel1 IH]; intros fuel2 root ts Hs H1 H2; [lia|].
  destruct fuel2 as [|fuel2]; [lia|].
  destruct segs as [|s rest]; [reflexivity|].
  rewrite !(hunter_entries _ _ _ _ _ _ (serves_listing _ _ _ Hs)).
  f_equal.
  destruct (value (stage1 repo s rest (map entry ts))) as [[p|]| |];
    try reflexivity.
  f_equal. apply stage2_ext. intros item Hin Hd.
  apply in_map_iff in Hin. destruct Hin as [t [<- Hin]].
  apply (IH fuel2 _ (kids t)).
  - now apply (serves_kids repo root ts).
  - now apply (kids_lower t ts).
  - now apply (kids_lower t ts).
Qed.

Lemma stage2_returns (recur : string -> Py (option string))
  (items : list ContentFile) :
  (forall item, In item items -> is_dir item = true ->
                exists r, value (recur (path item)) = Ok r) ->
  exists r, value (stage2 recur items) = Ok r.
Proof.
  induction items as [|item items IH]; intros H; [now exists None|].
  rewrite stage2_cons.
  assert (IH' : exists r, value (stage2 recur items) = Ok r)
    by (apply IH; intros x Hx; apply H; now right).
  destruct (is_dir item) eqn:Hd; [|exact IH'].
  destruct (H item (or_introl eq_refl) Hd) as [r Hr]. rewrite Hr.
  destruct (truthy r); [now exists r|exact IH'].
Qed.

(** ** Directories of a tree *)

Lemma tree_dirs_dir (t : Tree) :
  is_dir (entry t) = true -> tree_dirs t = entry t :: dirs (kids t).
Proof. destruct t as [item children]. cbn. now intros ->. Qed.

Lemma tree_dirs_other (t : Tree) :
  is_dir (entry t) = false -> tree_dirs t = [].
Proof. destruct t as [item children]. cbn. now intros ->. Qed.

Lemma in_dirs_top (t : Tree) (ts : list Tree) :
  In t ts -> is_dir (entry t) = true -> In (entry t) (dirs ts).
Proof.
  intros Hin Hd. apply in_flat_map. exists t. split; [exact Hin|].
  rewrite (tree_dirs_dir t Hd). now left.
Qed.

Lemma in_dirs_kids (t : Tree) (ts : list Tree) (d : ContentFile) :
  In t ts -> is_dir (entry t) = true -> In d (dirs (kids t)) ->
  In d (dirs ts).
Proof.
  intros Hin Hd Hk. apply in_flat_map. exists t. split; [exact Hin|].
  rewrite (tree_dirs_dir t Hd). now right.
Qed.

Lemma in_dirs_inv (ts : list Tree) (d : ContentFile) :
  In d (dirs ts) ->
  exists t, In t ts /\ is_dir (entry t) = true
            /\ (d = entry t \/ In d (dirs (kids t))).
Proof.
  intros H. apply in_flat_map in H. destruct H as [t [Hin Hd]].
  exists t. split; [exact Hin|].
  destruct (is_dir (entry t)) eqn:E.
  - rewrite (tree_dirs_dir t E) in Hd. split; [reflexivity|].
    destruct Hd as [<-|Hd]; [now left|now right].
  - now rewrite (tree_dirs_other t E) in Hd.
Qed.

Lemma dirs_cons (t : Tree) (ts : list Tree) :
  dirs (t :: ts) = tree_dirs t ++ dirs ts.
Proof. reflexivity. Qed.

Lemma dirs_head_dir (t : Tree) (ts : list Tree) (q : string) :
  is_dir (entry t) = true ->
  q = path (entry t) \/ (exists e, In e (dirs (kids t)) /\ path e = q) ->
  exists e, In e (dirs (t :: ts)) /\ path e = q.
Proof.
  intros Hd H. rewrite dirs_cons.
  assert (Hhere : forall e, In e (entry t :: dirs (kids t)) ->
                            In e (tree_dirs t ++ dirs ts)).
  { intros e He. apply in_or_app. left.
    destruct t as [item children]. cbn in *. now rewrite Hd. }
  destruct H as [->|[e [He Hp]]].
  - exists (entry t). split; [apply Hhere; now left|reflexivity].
  - exists e. split; [apply Hhere; now right|exact Hp].
Qed.

Lemma dirs_tail (t : Tree) (ts : list Tree) (q : string) :
  (exists e, In e (dirs ts) /\ path e = q) ->
  exists e, In e (dirs (t :: ts)) /\ path e = q.
Proof.
  intros [e [He Hp]]. exists e. split; [|exact Hp].
  rewrite dirs_cons. apply in_or_app. now right.
Qed.

Lemma follower_listed_in_tree (repo : Repo) (segs : list string) :
  forall (base : string) (ts : list Tree) (q : string),
    serves repo base ts ->
    In q (listed (_find_strict_sequence_from_path repo segs base)) ->
    q = base \/ exists e, In e (dirs ts) /\ path e = q.
Proof.
  induction segs as [|s rest IH]; intros base ts q Hs; [intros []|].
  rewrite follower_cons, (serves_listing _ _ _ Hs).
  destruct (scan_contents s (map entry ts)) as [item|] eqn:Hscan.
  - destruct (scan_contents_some _ _ _ Hscan) as [Hin Hd].
    apply in_map_iff in Hin. destruct Hin as [t [<- Hin]].
    apply dir_named_iff in Hd. destruct Hd as [Hd _].
    cbn [listed snd]. intros [<-|Hq]; [now left|right].
    destruct (IH _ (kids t) q (serves_kids _ _ _ t Hs Hin Hd) Hq)
      as [->|[e [He Hp]]].
    + exists (entry t). split; [now apply in_dirs_top|reflexivity].
    + exists e. split; [now apply (in_dirs_kids t)|exact Hp].
  - cbn [listed snd]. intros [<-|[]]. now left.
Qed.

Lemma stage1_listed_in_tree (repo : Repo) (s : string) (rest : list string)
  (q : string) :
  forall ts : list Tree,
    (forall t, In t ts -> is_dir (entry t) = true ->
               serves repo (path (entry t)) (kids t)) ->
    In q (listed (stage1 repo s rest (map entry ts))) ->
    exists e, In e (dirs ts) /\ path e = q.
Proof.
  induction ts as [|t ts IH]; intros Hs; [intros []|].
  assert (IH' : In q (listed (stage1 repo s rest (map entry ts))) ->
                exists e, In e (dirs (t :: ts)) /\ path e = q).
  { intros Hq. apply dirs_tail, IH; [|exact Hq].
    intros u Hu. apply Hs. now right. }
  cbn [map]. rewrite stage1_cons.
  destruct (dir_named s (entry t)) eqn:Hd; [|exact IH'].
  apply dir_named_iff in Hd. destruct Hd as [Hd _].
  destruct rest as [|s' rest']; [intros []|].
  cbv zeta.
  assert (Hfol : In q (listed (_find_strict_sequence_from_path repo
                                 (s' :: rest') (path (entry t)))) ->
                 exists e, In e (dirs (t :: ts)) /\ path e = q).
  { intros Hq. apply (dirs_head_dir t ts q Hd).
    apply (follower_listed_in_tree repo (s' :: rest') _ (kids t) q);
      [|exact Hq].
    apply Hs; [now left|exact Hd]. }
  destruct (succeeded _); [exact Hfol|].
  rewrite listed_after. intros Hq. apply in_app_or in Hq.
  destruct Hq as [Hq|Hq]; [now apply Hfol|now apply IH'].
Qed.

Lemma stage2_listed_in_tree (recur : string -> Py (option string))
  (q : string) :
  forall ts : list Tree,
    (forall t, In t ts -> is_dir (entry t) = true ->
               In q (listed (recur (path (entry t)))) ->
               q = path (entry t)
               \/ exists e, In e (dirs (kids t)) /\ path e = q) ->
    In q (listed (stage2 recur (map entry ts))) ->
    exists e, In e (dirs ts) /\ path e = q.
Proof.
  induction ts as [|t ts IH]; intros Hrec; [intros []|].
  assert (IH' : In q (listed (stage2 recur (map entry ts))) ->
                exists e, In e (dirs (t :: ts)) /\ path e = q).
  { intros Hq. apply dirs_tail, IH; [|exact Hq].
    intros u Hu. apply Hrec. now right. }
  cbn [map]. rewrite stage2_cons.
  destruct (is_dir (entry t)) eqn:Hd; [|exact IH'].
  assert (Hcall : In q (listed (recur (path (entry t)))) ->
                  exists e, In e (dirs (t :: ts)) /\ path e = q).
  { intros Hq. apply (dirs_head_dir t ts q Hd).
    apply Hrec; [now left|exact Hd|exact Hq]. }
  destruct (value (recur (path (entry t)))) as [r| |]; try exact Hcall.
  destruct (truthy r); [exact Hcall|].
  rewrite listed_after. intros Hq. apply in_app_or in Hq.
  destruct Hq as [Hq|Hq]; [now apply Hcall|now apply IH'].
Qed.

Lemma hunter_listed_in_tree (repo : Repo) (segs : list string) (q : string) :
  forall (fuel : nat) (root : string) (ts : list Tree),
    serves repo root ts ->
    In q (listed (find_target_sequence_globally fuel repo segs root)) ->
    q = root \/ exists e, In e (dirs ts) /\ path e = q.
Proof.
  induction fuel as [|fuel IH]; intros root ts Hs; [intros []|].
  destruct segs as [|s rest]; [intros []|].
  rewrite (hunter_entries _ _ _ _ _ _ (serves_listing _ _ _ Hs)), listed_after.
  cbn [app]. intros [<-|Hq]; [now left|right].
  pose proof (stage1_listed_in_tree repo s rest q ts
                (fun t => serves_kids repo root ts t Hs)) as H1.
  destruct (value (stage1 repo s rest (map entry ts))) as [[p|]| |];
    try (now apply H1).
  rewrite listed_after in Hq. apply in_app_or in Hq.
  destruct Hq as [Hq|Hq]; [now apply H1|].
  apply (stage2_listed_in_tree
           (find_target_sequence_globally fuel repo (s :: rest)) q ts);
    [|exact Hq].
  intros t Hin Hd. apply IH. now apply (serves_kids repo root ts).
Qed.

(** C8. The hunter terminates on every finite directory tree.  A call
    lists its search root and, beyond that, only directories of the tree
    below that root: Stage 2 recurses into entries of the listing of the
    current root and nowhere else.  So a recursion budget one above the
    height of the tree is never used up: the call returns an answer (a path
    or [None]), and every larger budget gives the same answer and the same
    listings. *)
Theorem hunter_terminates :
  forall (repo : Repo) (root : string) (ts : list Tree)
         (segs : list string) (fuel : nat),
    serves repo root ts ->
    forest_height ts < fuel ->
    (exists r, value (find_target_sequence_globally fuel repo segs root) = Ok r)
    /\ find_target_sequence_globally fuel repo segs root
       = find_target_sequence_globally (S (forest_height ts)) repo segs root
    /\ (forall q,
           In q (listed (find_target_sequence_globally fuel repo segs root)) ->
           q = root \/ exists e, In e (dirs ts) /\ path e = q).
Proof.
  intros repo root ts segs fuel Hs Hf. split; [|split].
  - revert root ts Hs Hf.
    induction fuel as [|fuel IH]; intros root ts Hs Hf; [lia|].
    destruct segs as [|s rest]; [now exists None|].
    rewrite (hunter_entries _ _ _ _ _ _ (serves_listing _ _ _ Hs)), value_after.
    destruct (stage1_returns repo s rest (map entry ts)) as [r Hr]. rewrite Hr.
    destruct r as [p|]; [now exists (Some p)|].
    rewrite value_after. apply stage2_returns. intros item Hin Hd.
    apply in_map_iff in Hin. destruct Hin as [t [<- Hin]].
    apply (IH _ (kids t)).
    + now apply (serves_kids repo root ts).
    + now apply (kids_lower t ts).
  - apply (hunter_fuel_stable repo segs fuel _ root ts Hs Hf). lia.
  - intros q. now apply hunter_listed_in_tree.
Qed.

(** The in-memory repositories present their trees. *)
Lemma resources_tree_served :
  serves (repo_of resources_tree) "" resources_tree.
Proof. unfold resources_tree. serve. Qed.

Lemma two_depths_tree_served :
  serves (repo_of two_depths_tree) "" two_depths_tree.
Proof. unfold two_depths_tree. serve. Qed.

Lemma twin_tree_served : serves (repo_of twin_tree) "" twin_tree.
Proof. unfold twin_tree. serve. Qed.

Lemma hunter_terminates_witness :
  (exists r,
      value (find_target_sequence_globally 5 (repo_of resources_tree)
               ["resources"; "data"] "") = Ok r)
  /\ find_target_sequence_globally 5 (repo_of resources_tree)
       ["resources"; "data"] ""
     = find_target_sequence_globally (S (forest_height resources_tree))
         (repo_of resources_tree) ["resources"; "data"] ""
  /\ (forall q,
         In q (listed (find_target_sequence_globally 5 (repo_of resources_tree)
                         ["resources"; "data"] "")) ->
         q = "" \/ exists e, In e (dirs resources_tree) /\ path e = q).
Proof.
  apply (hunter_terminates (repo_of resources_tree) "" resources_tree
           ["resources"; "data"] 5).
  - exact resources_tree_served.
  - cbn. lia.
Defined.

Lemma stage2_all_fail (recur : string -> Py (option string))
  (items : list ContentFile) :
  (forall item, In item items -> is_dir item = true ->
                exists r, value (recur (path item)) = Ok r
                          /\ truthy r = false) ->
  value (stage2 recur items) = Ok None.
Proof.
  induction items as [|item items IH]; intros H; [reflexivity|].
  rewrite stage2_cons.
  assert (IH' : value (stage2 recur items) = Ok None)
    by (apply IH; intros x Hx; apply H; now right).
  destruct (is_dir item) eqn:Hd; [|exact IH'].
  destruct (H item (or_introl eq_refl) Hd) as [r [Hr Ht]].
  now rewrite Hr, Ht, value_after.
Qed.

Lemma stage1_no_match (repo : Repo) (s : string) (rest : list string)
  (items : list ContentFile) :
  (forall x, In x items -> dir_named s x = false) ->
  stage1 repo s rest items = (Ok None, []).
Proof.
  intros H. rewrite <- (app_nil_r items). now rewrite stage1_skip.
Qed.

Lemma hunter_absent (repo : Repo) (s : string) (rest : list string) :
  forall (fuel : nat) (root : string) (ts : list Tree),
    serves repo root ts ->
    (forall d, In d (dirs ts) -> name d <> s) ->
    forest_height ts < fuel ->
    value (find_target_sequence_globally fuel repo (s :: rest) root) = Ok None.
Proof.
  induction fuel as [|fuel IH]; intros root ts Hs Hno Hf; [lia|].
  rewrite (hunter_entries _ _ _ _ _ _ (serves_listing _ _ _ Hs)), value_after.
  rewrite stage1_no_match.
  - cbn [value fst]. rewrite value_after. apply stage2_all_fail.
    intros item Hin Hd. apply in_map_iff in Hin. destruct Hin as [t [<- Hin]].
    exists None. split; [|reflexivity].
    apply (IH _ (kids t)).
    + now apply (serves_kids repo root ts).
    + intros d Hk. apply Hno. now apply (in_dirs_kids t).
    + now apply (kids_lower t ts).
  - intros x Hin. apply in_map_iff in Hin. destruct Hin as [t [<- Hin]].
    unfold dir_named. destruct (is_dir (entry t)) eqn:Hd; [|reflexivity].
    cbn [andb]. apply String.eqb_neq, Hno. now apply in_dirs_top.
Qed.

(** C2. In a finite directory tree without any directory named [S[0]],
    [locateSequence] answers [None], whatever follows [S[0]] in the
    sequence. *)
Theorem no_first_segment_not_found :
  forall (repo : Repo) (ts : list Tree) (s0 : string) (rest : list string)
         (fuel : nat),
    serves repo "" ts ->
    (forall d, In d (dirs ts) -> name d <> s0) ->
    forest_height ts < fuel ->
    value (locateSequence fuel repo (s0 :: rest)) = Ok None.
Proof.
  intros repo ts s0 rest fuel Hs Hno Hf.
  now apply (hunter_absent repo s0 rest fuel "" ts).
Qed.

Lemma no_first_segment_not_found_witness :
  value (locateSequence 5 (repo_of resources_tree) ["assets"; "data"])
  = Ok None.
Proof.
  apply (no_first_segment_not_found (repo_of resources_tree) resources_tree
           "assets" ["data"] 5).
  - exact resources_tree_served.
  - cbn. intros d H.
    repeat (destruct H as [<-|H]; [discriminate|]). contradiction.
  - cbn. lia.
Defined.

(** ** Well-formed trees and chains *)

Lemma paths_nonempty_in (ts : list Tree) (t : Tree) :
  forallb paths_nonempty ts = true -> In t ts ->
  path (entry t) <> "" /\ forallb paths_nonempty (kids t) = true.
Proof.
  intros H Hin. rewrite forallb_forall in H. specialize (H t Hin).
  destruct t as [item children]. cbn in *.
  apply andb_prop in H. destruct H as [H1 H2]. split; [|exact H2].
  apply String.eqb_neq. now apply negb_true_iff.
Qed.

Lemma names_distinct_in (ts : list Tree) (t : Tree) :
  forallb names_distinct ts = true -> In t ts ->
  distinct (dir_names (kids t)) = true
  /\ forallb names_distinct (kids t) = true.
Proof.
  intros H Hin. rewrite forallb_forall in H. specialize (H t Hin).
  destruct t as [item children]. cbn in *. now apply andb_prop in H.
Qed.

Lemma flat_map_nil {A B} (f : A -> list B) (l : list A) :
  (forall x, In x l -> f x = []) -> flat_map f l = [].
Proof.
  induction l as [|a l IH]; intros H; [reflexivity|].
  cbn [flat_map]. rewrite (H a (or_introl eq_refl)), IH; [reflexivity|].
  intros x Hx. apply H. now right.
Qed.

Lemma chain_ends_not_named (s : string) (rest : list string) (t : Tree) :
  dir_named s (entry t) = false -> chain_ends (s :: rest) t = [].
Proof. intros H. cbn [chain_ends]. now rewrite H. Qed.

Lemma chain_ends_named (s : string) (rest : list string) (t : Tree) :
  dir_named s (entry t) = true ->
  chain_ends (s :: rest) t =
  match rest with
  | [] => [path (entry t)]
  | _ :: _ => flat_map (chain_ends rest) (kids t)
  end.
Proof. intros H. cbn [chain_ends]. now rewrite H. Qed.

Lemma chain_ends_nonempty (segs : list string) :
  forall (t : Tree) (p : string),
    paths_nonempty t = true -> In p (chain_ends segs t) -> p <> "".
Proof.
  induction segs as [|s rest IH]; intros t p Ht Hp; [destruct Hp|].
  destruct (dir_named s (entry t)) eqn:Hd.
  - rewrite (chain_ends_named _ _ _ Hd) in Hp.
    destruct (paths_nonempty_in [t] t) as [Hpath Hkids];
      [cbn; now rewrite Ht|now left|].
    destruct rest as [|s' rest'].
    + destruct Hp as [<-|[]]. exact Hpath.
    + apply in_flat_map in Hp. destruct Hp as [k [Hk Hp]].
      apply (IH k p); [|exact Hp].
      rewrite forallb_forall in Hkids. now apply Hkids.
  - now rewrite (chain_ends_not_named _ _ _ Hd) in Hp.
Qed.

Lemma dir_names_cons (t : Tree) (ts : list Tree) :
  dir_names (t :: ts) =
  if is_dir (entry t) then name (entry t) :: dir_names ts else dir_names ts.
Proof. unfold dir_names. cbn. now destruct (is_dir (entry t)). Qed.

Lemma distinct_tail (t : Tree) (ts : list Tree) :
  distinct (dir_names (t :: ts)) = true -> distinct (dir_names ts) = true.
Proof.
  rewrite dir_names_cons. destruct (is_dir (entry t)); [|trivial].
  cbn [distinct]. intros H. now apply andb_prop in H.
Qed.

Lemma distinct_no_more (s : string) (t : Tree) (ts : list Tree) :
  distinct (dir_names (t :: ts)) = true ->
  dir_named s (entry t) = true ->
  forall x, In x ts -> dir_named s (entry x) = false.
Proof.
  intros Hdis Ht x Hx. unfold dir_named in *.
  apply andb_prop in Ht. destruct Ht as [Hd Hn].
  apply String.eqb_eq in Hn.
  rewrite dir_names_cons, Hd in Hdis. cbn [distinct] in Hdis.
  apply andb_prop in Hdis. destruct Hdis as [Hex _].
  apply negb_true_iff in Hex.
  destruct (is_dir (entry x)) eqn:Hdx; [|reflexivity].
  destruct (String.eqb_spec (name (entry x)) s) as [Hnx|]; [|reflexivity].
  exfalso.
  assert (Hin : existsb (String.eqb (name (entry t))) (dir_names ts) = true).
  { apply existsb_exists. exists (name (entry x)). split.
    - unfold dir_names. apply in_map. apply filter_In. split; [|exact Hdx].
      now apply in_map.
    - apply String.eqb_eq. congruence. }
  congruence.
Qed.

Lemma scan_chain (s : string) (rest : list string) (ts : list Tree) :
  distinct (dir_names ts) = true ->
  match scan_contents s (map entry ts) with
  | Some item =>
      exists t, In t ts /\ entry t = item /\ dir_named s item = true
                /\ flat_map (chain_ends (s :: rest)) ts
                   = chain_ends (s :: rest) t
  | None => flat_map (chain_ends (s :: rest)) ts = []
  end.
Proof.
  induction ts as [|t ts IH]; intros Hdis; [reflexivity|].
  cbn [map scan_contents flat_map].
  destruct (dir_named s (entry t)) eqn:Hd.
  - exists t. repeat split; [now left|exact Hd|].
    rewrite (flat_map_nil (chain_ends (s :: rest)) ts); [apply app_nil_r|].
    intros x Hx. apply chain_ends_not_named.
    now apply (distinct_no_more s t ts).
  - rewrite (chain_ends_not_named _ _ _ Hd). cbn [app].
    specialize (IH (distinct_tail _ _ Hdis)).
    destruct (scan_contents s (map entry ts)) as [item|]; [|exact IH].
    destruct IH as [u [Hu [He [Hn Hf]]]].
    exists u. repeat split; [now right|exact He|exact Hn|exact Hf].
Qed.

(** The follower on a tree with distinct sibling names: it reaches the
    end of the chain exactly when the chain is there. *)
Lemma follower_on_tree (repo : Repo) (segs : list string) :
  forall (base : string) (ts : list Tree),
    segs <> [] ->
    serves repo base ts ->
    distinct (dir_names ts) = true ->
    forallb names_distinct ts = true ->
    value (_find_strict_sequence_from_path repo segs base)
    = Ok (head (flat_map (chain_ends segs) ts)).
Proof.
  induction segs as [|s rest IH]; intros base ts Hne Hs Hdis Hdeep;
    [contradiction|].
  rewrite follower_cons, (serves_listing _ _ _ Hs).
  pose proof (scan_chain s rest ts Hdis) as Hscan.
  destruct (scan_contents s (map entry ts)) as [item|].
  - destruct Hscan as [t [Hin [<- [Hd Hflat]]]].
    rewrite Hflat, (chain_ends_named _ _ _ Hd). cbn [value fst].
    destruct rest as [|s' rest']; [reflexivity|].
    assert (Hdir : is_dir (entry t) = true)
      by (unfold dir_named in Hd; now apply andb_prop in Hd).
    destruct (names_distinct_in ts t Hdeep Hin) as [Hk1 Hk2].
    apply IH; [discriminate| |exact Hk1|exact Hk2].
    now apply (serves_kids repo base ts).
  - now rewrite Hscan.
Qed.

Lemma stage1_on_tree (repo : Repo) (s : string) (rest : list string) :
  forall ts : list Tree,
    (forall t, In t ts -> is_dir (entry t) = true ->
               serves repo (path (entry t)) (kids t)) ->
    forallb paths_nonempty ts = true ->
    rest = [] \/ forallb names_distinct ts = true ->
    value (stage1 repo s rest (map entry ts))
    = Ok (head (flat_map (chain_ends (s :: rest)) ts)).
Proof.
  induction ts as [|t ts IH]; intros Hs Hpaths Hnames; [reflexivity|].
  assert (IH' : value (stage1 repo s rest (map entry ts))
                = Ok (head (flat_map (chain_ends (s :: rest)) ts))).
  { apply IH.
    - intros u Hu. apply Hs. now right.
    - cbn [forallb] in Hpaths. now apply andb_prop in Hpaths.
    - destruct Hnames as [->|Hn]; [now left|right].
      cbn [forallb] in Hn. now apply andb_prop in Hn. }
  cbn [map flat_map]. rewrite stage1_cons.
  destruct (dir_named s (entry t)) eqn:Hd.
  - rewrite (chain_ends_named _ _ _ Hd).
    destruct rest as [|s' rest']; [reflexivity|].
    cbv zeta.
    assert (Hdir : is_dir (entry t) = true)
      by (unfold dir_named in Hd; now apply andb_prop in Hd).
    destruct Hnames as [Hn|Hn]; [discriminate|].
    destruct (names_distinct_in (t :: ts) t Hn (or_introl eq_refl))
      as [Hk1 Hk2].
    pose proof (follower_on_tree repo (s' :: rest') (path (entry t)) (kids t)
                  ltac:(discriminate) (Hs t (or_introl eq_refl) Hdir) Hk1 Hk2)
      as Hfol.
    unfold succeeded. rewrite Hfol.
    destruct (flat_map (chain_ends (s' :: rest')) (kids t)) as [|p ps] eqn:Hl.
    + cbn [hd_error truthy app]. now rewrite value_after.
    + cbn [hd_error truthy app].
      assert (Hp : p <> "").
      { apply (chain_ends_nonempty (s :: s' :: rest') t p).
        - cbn [forallb] in Hpaths. now apply andb_prop in Hpaths.
        - rewrite (chain_ends_named _ _ _ Hd), Hl. now left. }
      apply String.eqb_neq in Hp. rewrite Hp. cbn [negb]. exact Hfol.
  - now rewrite (chain_ends_not_named _ _ _ Hd).
Qed.

(** ** Occurrences in search order *)

Lemma map_snd_pair {A B} (a : A) (l : list B) : map snd (map (pair a) l) = l.
Proof. induction l as [|b l IH]; [reflexivity|]. cbn. now rewrite IH. Qed.

Lemma map_flat_map {A B C} (g : B -> C) (f : A -> list B) (l : list A) :
  map g (flat_map f l) = flat_map (fun x => map g (f x)) l.
Proof.
  induction l as [|a l IH]; [reflexivity|].
  cbn [flat_map]. now rewrite map_app, IH.
Qed.

Lemma flat_map_ext_in {A B} (f g : A -> list B) (l : list A) :
  (forall x, In x l -> f x = g x) -> flat_map f l = flat_map g l.
Proof.
  induction l as [|a l IH]; intros H; [reflexivity|].
  cbn [flat_map]. rewrite (H a (or_introl eq_refl)), IH; [reflexivity|].
  intros x Hx. apply H. now right.
Qed.

Lemma occurrences_in_depth (segs : list string) (t : Tree) :
  forall d d',
    map snd (occurrences_in segs d t) = map snd (occurrences_in segs d' t).
Proof.
  induction t as [item children IH] using Tree_forall_ind. intros d d'.
  cbn [occurrences_in]. destruct (is_dir item); [|reflexivity].
  rewrite !map_app, !map_snd_pair, !map_flat_map. f_equal.
  apply flat_map_ext_in. intros k Hk.
  rewrite Forall_forall in IH. now apply IH.
Qed.

Lemma occurrences_in_dir (segs : list string) (d : nat) (t : Tree) :
  is_dir (entry t) = true ->
  map snd (occurrences_in segs d t) = map snd (occurrences segs (kids t)).
Proof.
  destruct t as [item children]. cbn [entry kids occurrences_in].
  intros ->. unfold occurrences.
  rewrite !map_app, !map_snd_pair, !map_flat_map. f_equal.
  apply flat_map_ext_in. intros k _. apply occurrences_in_depth.
Qed.

Lemma occurrences_in_other (segs : list string) (d : nat) (t : Tree) :
  is_dir (entry t) = false -> occurrences_in segs d t = [].
Proof. destruct t as [item children]. cbn. now intros ->. Qed.

Lemma occurrences_in_nonempty (segs : list string) (t : Tree) :
  paths_nonempty t = true ->
  forall d n p, In (n, p) (occurrences_in segs d t) -> p <> "".
Proof.
  induction t as [item children IH] using Tree_forall_ind.
  intros Ht d n p Hin. cbn [occurrences_in] in Hin.
  destruct (is_dir item); [|destruct Hin].
  cbn [paths_nonempty] in Ht. apply andb_prop in Ht. destruct Ht as [_ Hks].
  rewrite forallb_forall in Hks. rewrite Forall_forall in IH.
  apply in_app_or in Hin. destruct Hin as [Hin|Hin].
  - apply in_map_iff in Hin. destruct Hin as [q [Hq Hin]].
    injection Hq as _ ->.
    apply in_flat_map in Hin. destruct Hin as [k [Hk Hin]].
    apply (chain_ends_nonempty segs k p); [now apply Hks|exact Hin].
  - apply in_flat_map in Hin. destruct Hin as [k [Hk Hin]].
    apply (IH k Hk (Hks k Hk) (S d) n p Hin).
Qed.

Lemma occurrences_nonempty (segs : list string) (ts : list Tree) :
  forallb paths_nonempty ts = true ->
  forall n p, In (n, p) (occurrences segs ts) -> p <> "".
Proof.
  intros Hts n p Hin. rewrite forallb_forall in Hts.
  apply in_app_or in Hin. destruct Hin as [Hin|Hin].
  - apply in_map_iff in Hin. destruct Hin as [q [Hq Hin]].
    injection Hq as _ ->.
    apply in_flat_map in Hin. destruct Hin as [k [Hk Hin]].
    apply (chain_ends_nonempty segs k p); [now apply Hts|exact Hin].
  - apply in_flat_map in Hin. destruct Hin as [k [Hk Hin]].
    apply (occurrences_in_nonempty segs k (Hts k Hk) 1 n p Hin).
Qed.

Lemma first_occurrence_nonempty (segs : list string) (ts : list Tree)
  (p : string) :
  forallb paths_nonempty ts = true ->
  first_occurrence segs ts = Some p -> p <> "".
Proof.
  intros Hts. unfold first_occurrence.
  destruct (occurrences segs ts) as [|[n q] l] eqn:E; [discriminate|].
  cbn. intros [= <-].
  apply (occurrences_nonempty segs ts Hts n q). rewrite E. now left.
Qed.

Lemma stage2_on_tree (recur : string -> Py (option string))
  (segs : list string) :
  forall ts : list Tree,
    (forall t, In t ts -> is_dir (entry t) = true ->
               value (recur (path (entry t)))
               = Ok (first_occurrence segs (kids t))) ->
    forallb paths_nonempty ts = true ->
    value (stage2 recur (map entry ts))
    = Ok (head (map snd (flat_map (occurrences_in segs 1) ts))).
Proof.
  induction ts as [|t ts IH]; intros Hrec Hpaths; [reflexivity|].
  assert (IH' : value (stage2 recur (map entry ts))
                = Ok (head (map snd (flat_map (occurrences_in segs 1) ts)))).
  { apply IH.
    - intros u Hu. apply Hrec. now right.
    - cbn [forallb] in Hpaths. now apply andb_prop in Hpaths. }
  cbn [map flat_map]. rewrite stage2_cons, map_app.
  destruct (is_dir (entry t)) eqn:Hd.
  - rewrite (occurrences_in_dir segs 1 t Hd).
    rewrite (Hrec t (or_introl eq_refl) Hd).
    destruct (paths_nonempty_in (t :: ts) t Hpaths (or_introl eq_refl))
      as [_ Hk].
    pose proof (first_occurrence_nonempty segs (kids t)) as Hne.
    unfold first_occurrence in Hne |- *.
    destruct (map snd (occurrences segs (kids t))) as [|p ps] eqn:E.
    + cbn [hd_error truthy app]. now rewrite value_after.
    + cbn [hd_error truthy app].
      specialize (Hne p Hk eq_refl). apply String.eqb_neq in Hne.
      rewrite Hne. cbn [negb].
      rewrite (Hrec t (or_introl eq_refl) Hd). unfold first_occurrence.
      now rewrite E.
  - now rewrite (occurrences_in_other segs 1 t Hd).
Qed.

(** On a tree, the hunter's answer is the first complete occurrence in
    its own search order. *)
Lemma hunter_on_tree (repo : Repo) (s : string) (rest : list string) :
  forall (fuel : nat) (root : string) (ts : list Tree),
    serves repo root ts ->
    forallb paths_nonempty ts = true ->
    rest = [] \/ forallb names_distinct ts = true ->
    forest_height ts < fuel ->
    value (find_target_sequence_globally fuel repo (s :: rest) root)
    = Ok (first_occurrence (s :: rest) ts).
Proof.
  induction fuel as [|fuel IH]; intros root ts Hs Hpaths Hnames Hf; [lia|].
  rewrite (hunter_entries _ _ _ _ _ _ (serves_listing _ _ _ Hs)), value_after.
  pose proof (stage1_on_tree repo s rest ts
                (fun t => serves_kids repo root ts t Hs) Hpaths Hnames) as H1.
  rewrite H1.
  unfold first_occurrence, occurrences. rewrite map_app, map_snd_pair.
  destruct (flat_map (chain_ends (s :: rest)) ts) as [|p ps] eqn:Hl.
  - cbn [hd_error app]. rewrite value_after.
    apply stage2_on_tree; [|exact Hpaths].
    intros t Hin Hd. apply IH.
    + now apply (serves_kids repo root ts).
    + now apply (paths_nonempty_in ts t).
    + destruct Hnames as [->|Hn]; [now left|right].
      now apply (names_distinct_in ts t).
    + now apply (kids_lower t ts).
  - cbn [hd_error app]. exact H1.
Qed.

(** C1 (amended). In a finite, well-formed directory tree in which the
    sequence [S] ends at the node path [P] and no node completes it
    earlier in the hunter's own search order (at every directory the
    chains that start at a direct child, then the sub-directories one by
    one, depth-first, in listing order), [locateSequence] returns [P].
    Depth plays no part: [P] is the head of [occurrences]. *)
Theorem locate_returns_first_occurrence :
  forall (repo : Repo) (ts : list Tree) (s0 : string) (rest : list string)
         (d : nat) (P : string) (later : list (nat * string)) (fuel : nat),
    serves repo "" ts ->
    well_formed ts = true ->
    forest_height ts < fuel ->
    occurrences (s0 :: rest) ts = (d, P) :: later ->
    value (locateSequence fuel repo (s0 :: rest)) = Ok (Some P).
Proof.
  intros repo ts s0 rest d P later fuel Hs Hwf Hf Hocc.
  unfold well_formed in Hwf.
  apply andb_prop in Hwf. destruct Hwf as [Hwf Hdeep].
  apply andb_prop in Hwf. destruct Hwf as [Hpaths _].
  unfold locateSequence.
  rewrite (hunter_on_tree repo s0 rest fuel "" ts Hs Hpaths (or_intror Hdeep) Hf).
  unfold first_occurrence. now rewrite Hocc.
Qed.

Lemma locate_returns_first_occurrence_witness :
  value (locateSequence 5 (repo_of resources_tree) ["resources"; "data"])
  = Ok (Some "lib/resources/data").
Proof.
  apply (locate_returns_first_occurrence (repo_of resources_tree)
           resources_tree "resources" ["data"] 3 "lib/resources/data" [] 5).
  - exact resources_tree_served.
  - reflexivity.
  - cbn. lia.
  - reflexivity.
Defined.

(** C1 as stated fails.  In [two_depths_tree] the sequence [a/b] ends at
    [y/a/b], at depth 3, and no node at a smaller depth completes it (the
    only other occurrence, [x/z/a/b], lies at depth 4).  The hunter
    descends into [x] before it looks at [y] and returns [x/z/a/b]. *)
Lemma shallowest_occurrence_not_returned :
  serves (repo_of two_depths_tree) "" two_depths_tree
  /\ well_formed two_depths_tree = true
  /\ In (3, "y/a/b") (occurrences ["a"; "b"] two_depths_tree)
  /\ (forall d q, In (d, q) (occurrences ["a"; "b"] two_depths_tree) -> 3 <= d)
  /\ (forall fuel, forest_height two_depths_tree < fuel ->
        locateSequence fuel (repo_of two_depths_tree) ["a"; "b"]
        = (Ok (Some "x/z/a/b"), [""; "x"; "x/z"; "x/z/a"]))
  /\ value (locateSequence 5 (repo_of two_depths_tree) ["a"; "b"])
     <> Ok (Some "y/a/b").
Proof.
  split; [exact two_depths_tree_served|].
  split; [reflexivity|].
  split; [cbn; now right; left|].
  split.
  { cbn. intros d q [H|[H|[]]]; injection H as <- _; lia. }
  split; [|discriminate].
  intros fuel Hf. unfold locateSequence.
  rewrite (hunter_fuel_stable _ _ fuel 5 "" two_depths_tree
             two_depths_tree_served Hf); [reflexivity|].
  cbn. lia.
Qed.

(** ** A single segment: occurrences are the directories of that name *)

Lemma occurrences_as_node (segs : list string) (ts : list Tree) :
  occurrences segs ts = occurrences_in segs 0 (Node (dir "" "") ts).
Proof. reflexivity. Qed.

Lemma flat_map_not_nil {A B} (f : A -> list B) (l : list A) (x : A) :
  In x l -> f x <> [] -> flat_map f l <> [].
Proof.
  intros Hin Hx Hnil. apply Hx.
  destruct (f x) as [|b bs] eqn:E; [reflexivity|].
  assert (Hb : In b (flat_map f l))
    by (apply in_flat_map; exists x; split; [exact Hin|rewrite E; now left]).
  rewrite Hnil in Hb. destruct Hb.
Qed.

Lemma single_occurrence_sound (s : string) (t : Tree) :
  forall d n p,
    In (n, p) (occurrences_in [s] d t) ->
    exists e, In e (dirs (kids t)) /\ name e = s /\ path e = p.
Proof.
  induction t as [item children IH] using Tree_forall_ind.
  intros d n p Hin. cbn [occurrences_in kids] in *.
  destruct (is_dir item); [|destruct Hin].
  rewrite Forall_forall in IH.
  apply in_app_or in Hin. destruct Hin as [Hin|Hin].
  - apply in_map_iff in Hin. destruct Hin as [q [Hq Hin]].
    injection Hq as _ ->.
    apply in_flat_map in Hin. destruct Hin as [k [Hk Hin]].
    destruct (dir_named s (entry k)) eqn:Hd.
    + rewrite (chain_ends_named _ _ _ Hd) in Hin. destruct Hin as [<-|[]].
      apply dir_named_iff in Hd. destruct Hd as [Hd Hn].
      exists (entry k). split; [now apply in_dirs_top|now split].
    + now rewrite (chain_ends_not_named _ _ _ Hd) in Hin.
  - apply in_flat_map in Hin. destruct Hin as [k [Hk Hin]].
    destruct (is_dir (entry k)) eqn:Hd.
    + destruct (IH k Hk (S d) n p Hin) as [e [He1 He2]].
      exists e. split; [now apply (in_dirs_kids k)|exact He2].
    + now rewrite (occurrences_in_other _ _ _ Hd) in Hin.
Qed.

Lemma single_occurrence_complete (s : string) (t : Tree) :
  forall d e,
    is_dir (entry t) = true -> In e (dirs (kids t)) -> name e = s ->
    occurrences_in [s] d t <> [].
Proof.
  induction t as [item children IH] using Tree_forall_ind.
  intros d e Hdir He Hn. cbn [entry kids] in *. cbn [occurrences_in].
  rewrite Hdir. rewrite Forall_forall in IH.
  apply in_dirs_inv in He. destruct He as [k [Hk [Hkd [->|He]]]].
  - intros Hnil. apply app_eq_nil in Hnil. destruct Hnil as [Hnil _].
    apply map_eq_nil in Hnil. revert Hnil.
    apply (flat_map_not_nil _ _ k Hk).
    rewrite chain_ends_named by (apply dir_named_iff; now split).
    discriminate.
  - intros Hnil. apply app_eq_nil in Hnil. destruct Hnil as [_ Hnil].
    revert Hnil. apply (flat_map_not_nil _ _ k Hk).
    now apply (IH k Hk (S d) e).
Qed.

(** C7. With a sequence of one segment the hunter returns the path of
    the first directory of that name in its search order, whatever that
    directory contains: if the tree has a directory named [S[0]] at all,
    the answer is the path of such a directory, not [None]. *)
Theorem single_segment_finds_directory :
  forall (repo : Repo) (ts : list Tree) (s0 : string) (fuel : nat),
    serves repo "" ts ->
    forallb paths_nonempty ts = true ->
    forest_height ts < fuel ->
    (exists e, In e (dirs ts) /\ name e = s0) ->
    exists e,
      In e (dirs ts) /\ name e = s0
      /\ first_occurrence [s0] ts = Some (path e)
      /\ value (locateSequence fuel repo [s0]) = Ok (Some (path e)).
Proof.
  intros repo ts s0 fuel Hs Hpaths Hf [e [He Hn]].
  unfold locateSequence.
  rewrite (hunter_on_tree repo s0 [] fuel "" ts Hs Hpaths
             (or_introl eq_refl) Hf).
  unfold first_occurrence.
  pose proof (single_occurrence_complete s0 (Node (dir "" "") ts) 0 e
                eq_refl He Hn) as Hsome.
  rewrite <- occurrences_as_node in Hsome.
  destruct (occurrences [s0] ts) as [|[n p] l] eqn:E; [contradiction|].
  destruct (single_occurrence_sound s0 (Node (dir "" "") ts) 0 n p)
    as [e' [He' [Hn' Hp']]].
  { rewrite <- occurrences_as_node, E. now left. }
  exists e'. cbn [kids] in He'. cbn [map snd hd_error]. now rewrite Hp'.
Qed.

Lemma single_segment_finds_directory_witness :
  exists e,
    In e (dirs resources_tree) /\ name e = "data"
    /\ first_occurrence ["data"] resources_tree = Some (path e)
    /\ value (locateSequence 5 (repo_of resources_tree) ["data"])
       = Ok (Some (path e)).
Proof.
  apply (single_segment_finds_directory (repo_of resources_tree)
           resources_tree "data" 5).
  - exact resources_tree_served.
  - reflexivity.
  - cbn. lia.
  - exists (dir "data" "lib/resources/data"). split; [|reflexivity].
    cbn. right. right. now left.
Defined.

(** ** Where a result comes from *)

Lemma produced_mono (repo : Repo) (l l' : list string) (r : string) :
  (forall q, In q l -> In q l') -> produced repo l r -> produced repo l' r.
Proof.
  intros Hsub [q [items [item [Hq H]]]].
  exists q, items, item. split; [now apply Hsub|exact H].
Qed.

Lemma follower_produced (repo : Repo) (segs : list string) :
  forall (base r : string),
    segs <> [] ->
    value (_find_strict_sequence_from_path repo segs base) = Ok (Some r) ->
    produced repo (listed (_find_strict_sequence_from_path repo segs base)) r.
Proof.
  induction segs as [|s rest IH]; intros base r Hne; [contradiction|].
  rewrite follower_cons.
  destruct (repo base) as [contents|e] eqn:Hbase; [|discriminate].
  destruct (scan_contents s contents) as [item|] eqn:Hscan; [|discriminate].
  cbn [value fst listed snd]. intros Hv.
  destruct (scan_contents_some _ _ _ Hscan) as [Hin Hd].
  apply dir_named_iff in Hd. destruct Hd as [Hd _].
  destruct rest as [|s' rest'].
  - injection Hv as <-. exists base, contents, item.
    repeat split; [now left|exact Hbase|exact Hin|exact Hd].
  - apply (produced_mono repo
             (listed (_find_strict_sequence_from_path repo (s' :: rest')
                        (path item)))).
    + intros q Hq. now right.
    + apply IH; [discriminate|exact Hv].
Qed.

Lemma truthy_some (r : option string) (p : string) :
  truthy r = true -> r = Some p -> p <> "".
Proof.
  intros Ht ->. cbn in Ht. apply String.eqb_neq. now apply negb_true_iff.
Qed.

Lemma stage1_produced (repo : Repo) (s : string) (rest : list string)
  (r : string) :
  forall items : list ContentFile,
    value (stage1 repo s rest items) = Ok (Some r) ->
    (rest = [] /\ exists item, In item items /\ is_dir item = true
                               /\ path item = r)
    \/ (r <> "" /\ produced repo (listed (stage1 repo s rest items)) r).
Proof.
  induction items as [|item items IH]; [discriminate|].
  assert (IH' : value (stage1 repo s rest items) = Ok (Some r) ->
                forall l,
                  (rest = [] /\ exists x, In x (item :: items)
                                          /\ is_dir x = true /\ path x = r)
                  \/ (r <> ""
                      /\ produced repo
                           (l ++ listed (stage1 repo s rest items)) r)).
  { intros Hv l. destruct (IH Hv) as [[Hr [x [Hx Hp]]]|[Hr Hp]].
    - left. split; [exact Hr|]. exists x. split; [now right|exact Hp].
    - right. split; [exact Hr|].
      apply (produced_mono repo _ _ r) with (2 := Hp).
      intros q Hq. apply in_or_app. now right. }
  rewrite stage1_cons. destruct (dir_named s item) eqn:Hd.
  - destruct rest as [|s' rest'].
    + cbn [value fst]. intros [= <-]. left. split; [reflexivity|].
      apply dir_named_iff in Hd. exists item.
      repeat split; [now left|apply Hd].
    + cbv zeta. unfold succeeded.
      destruct (follower_returns repo (s' :: rest') (path item)) as [r0 Hr0].
      rewrite Hr0. destruct (truthy r0) eqn:Ht.
      * intros Hv. right. rewrite Hv in Hr0. injection Hr0 as Hr0.
        split; [now apply (truthy_some r0)|].
        apply follower_produced; [discriminate|exact Hv].
      * rewrite value_after, listed_after. intros Hv. exact (IH' Hv _).
  - intros Hv. apply (IH' Hv []).
Qed.

Lemma stage2_produced (repo : Repo) (recur : string -> Py (option string))
  (r : string) :
  (forall p, value (recur p) = Ok (Some r) ->
             produced repo (listed (recur p)) r) ->
  forall items : list ContentFile,
    value (stage2 recur items) = Ok (Some r) ->
    r <> "" /\ produced repo (listed (stage2 recur items)) r.
Proof.
  intros Hrec. induction items as [|item items IH]; [discriminate|].
  rewrite stage2_cons. destruct (is_dir item); [|exact IH].
  destruct (value (recur (path item))) as [r0|e|] eqn:Hv0.
  - destruct (truthy r0) eqn:Ht.
    + intros Hv. rewrite Hv in Hv0. injection Hv0 as Hv0.
      split; [now apply (truthy_some r0)|now apply Hrec].
    + rewrite value_after, listed_after. intros Hv.
      destruct (IH Hv) as [Hr Hp]. split; [exact Hr|].
      apply (produced_mono repo _ _ r) with (2 := Hp).
      intros q Hq. apply in_or_app. now right.
  - rewrite Hv0. discriminate.
  - rewrite Hv0. discriminate.
Qed.

Lemma hunter_produced (repo : Repo) (s : string) (rest : list string)
  (r : string) :
  forall (fuel : nat) (root : string),
    value (find_target_sequence_globally fuel repo (s :: rest) root)
    = Ok (Some r) ->
    produced repo
      (listed (find_target_sequence_globally fuel repo (s :: rest) root)) r
    /\ (r <> ""
        \/ exists items item,
             repo root = Entries items /\ In item items /\ path item = r).
Proof.
  induction fuel as [|fuel IH]; intros root; [discriminate|].
  destruct (repo root) as [contents|e] eqn:Hroot.
  - rewrite (hunter_entries _ _ _ _ _ _ Hroot), value_after, listed_after.
    destruct (stage1_returns repo s rest contents) as [r0 Hr0]. rewrite Hr0.
    destruct r0 as [p|].
    + intros Hv. destruct (stage1_produced repo s rest r contents Hv)
        as [[_ [item [Hin [Hd Hp]]]]|[Hr Hp]].
      * split.
        -- exists root, contents, item.
           repeat split; [now left|exact Hroot|exact Hin|exact Hd|exact Hp].
        -- right. now exists contents, item.
      * split; [|now left].
        apply (produced_mono repo _ _ r) with (2 := Hp).
        intros q Hq. now right.
    + rewrite value_after, listed_after. intros Hv.
      destruct (stage2_produced repo _ r (fun p Hp => proj1 (IH p Hp))
                  contents Hv) as [Hr Hp].
      split; [|now left].
      apply (produced_mono repo _ _ r) with (2 := Hp).
      intros q Hq. cbn [app]. right. apply in_or_app. now right.
  - rewrite (hunter_fault _ _ _ _ _ _ Hroot). discriminate.
Qed.

(** C10. On a tree and for a non-empty sequence, a result of the hunter
    other than [None] is a non-empty path, and it is the [path] of a
    directory entry in one of the listings the search made.  At the two
    places where a success is passed on (the chain attempt of Stage 1 and
    the recursive call of Stage 2) an empty path counts as no result: the
    loop goes on with the remaining entries exactly as after [None]. *)
Theorem hunter_result_is_listed_directory :
  forall (repo : Repo) (root : string) (ts : list Tree) (s0 : string)
         (rest : list string) (fuel : nat) (r : string),
    serves repo root ts ->
    forallb paths_nonempty ts = true ->
    value (find_target_sequence_globally fuel repo (s0 :: rest) root)
    = Ok (Some r) ->
    (r <> ""
     /\ produced repo
          (listed (find_target_sequence_globally fuel repo (s0 :: rest) root))
          r)
    /\ (forall s1 rest' item items r1,
           dir_named s0 item = true ->
           value (_find_strict_sequence_from_path repo (s1 :: rest')
                    (path item)) = Ok r1 ->
           r1 = None \/ r1 = Some "" ->
           stage1 repo s0 (s1 :: rest') (item :: items)
           = after (listed (_find_strict_sequence_from_path repo (s1 :: rest')
                              (path item)))
               (stage1 repo s0 (s1 :: rest') items))
    /\ (forall recur item items r1,
           is_dir item = true ->
           value (recur (path item)) = Ok r1 ->
           r1 = None \/ r1 = Some "" ->
           stage2 recur (item :: items)
           = after (listed (recur (path item))) (stage2 recur items)).
Proof.
  intros repo root ts s0 rest fuel r Hs Hpaths Hv. repeat split.
  - destruct (hunter_produced repo s0 rest r fuel root Hv)
      as [_ [Hr|[items [item [Hroot [Hin Hp]]]]]]; [exact Hr|].
    rewrite (serves_listing _ _ _ Hs) in Hroot. injection Hroot as <-.
    apply in_map_iff in Hin. destruct Hin as [t [<- Hin]]. subst r.
    now apply (paths_nonempty_in ts t).
  - apply (hunter_produced repo s0 rest r fuel root Hv).
  - intros s1 rest' item items r1 Hd Hr1 Hfalse.
    rewrite stage1_cons, Hd. cbv zeta. unfold succeeded. rewrite Hr1.
    now destruct Hfalse as [->| ->].
  - intros recur item items r1 Hd Hr1 Hfalse.
    rewrite stage2_cons, Hd, Hr1.
    now destruct Hfalse as [->| ->].
Qed.

Lemma hunter_result_is_listed_directory_witness :
  "lib/resources/data" <> ""
  /\ produced (repo_of resources_tree)
       (listed (find_target_sequence_globally 5 (repo_of resources_tree)
                  ["resources"; "data"] ""))
       "lib/resources/data".
Proof.
  apply (hunter_result_is_listed_directory (repo_of resources_tree) ""
           resources_tree "resources" ["data"] 5 "lib/resources/data").
  - exact resources_tree_served.
  - reflexivity.
  - reflexivity.
Defined.

(** ** The scenarios of the specification *)

Example scenario_resources :
  locateSequence 5 (repo_of resources_tree) ["resources"; "data"]
  = (Ok (Some "lib/resources/data"), [""; "lib"; "lib/resources"]).
Proof. reflexivity. Qed.

Example scenario_dead_end :
  locateSequence 4
    (repo_of [ Node (dir "x" "x")
                 [ Node (dir "a" "x/a") [ Node (dir "notb" "x/a/notb") [] ] ] ])
    ["a"; "b"]
  = (Ok None, [""; "x"; "x/a"; "x/a"; "x/a/notb"]).
Proof. reflexivity. Qed.

Example scenario_forbidden_root :
  locateSequence 1 forbidden_repo ["resources"; "data"] = (Ok None, [""]).
Proof. reflexivity. Qed.

(** An entry reported under the empty path is passed over by the truth
    test of Stage 2: the directory [a] is listed inside [x], and still
    the answer is [None]. *)
Example rootlike_entry_is_dropped :
  locateSequence 3 rootlike_entry_repo ["a"] = (Ok None, [""; "x"]).
Proof. reflexivity. Qed.

(** * Further properties of the search *)

(** ** The cost of a chain attempt *)

Lemma follower_budget (repo : Repo) (segs : list string) :
  forall base,
    List.length (listed (_find_strict_sequence_from_path repo segs base))
    <= List.length segs.
Proof.
  induction segs as [|s rest IH]; intros base; [apply Nat.le_refl|].
  rewrite follower_cons.
  destruct (repo base) as [contents|e]; [|cbn; lia].
  destruct (scan_contents s contents) as [item|]; [|cbn; lia].
  cbn [listed snd List.length]. specialize (IH (path item)). lia.
Qed.

(** X1. The follower lists at most one directory per segment, and exactly
    one per segment when it reaches the end of the chain: it stops at the
    first segment that is missing or whose parent cannot be listed. *)
Theorem follower_one_listing_per_segment :
  forall (repo : Repo) (segments : list string) (base_path : string),
    List.length (listed (_find_strict_sequence_from_path repo segments base_path))
    <= List.length segments
    /\ (forall r,
           value (_find_strict_sequence_from_path repo segments base_path)
           = Ok (Some r) ->
           List.length
             (listed (_find_strict_sequence_from_path repo segments base_path))
           = List.length segments).
Proof.
  intros repo segments base_path. split; [apply follower_budget|].
  revert base_path.
  induction segments as [|s rest IH]; intros base r; [reflexivity|].
  rewrite follower_cons.
  destruct (repo base) as [contents|e]; [|discriminate].
  destruct (scan_contents s contents) as [item|]; [|discriminate].
  cbn [value fst listed snd List.length]. intros Hv.
  now rewrite (IH (path item) r Hv).
Qed.

(** ** The search sees directories only *)

Lemma scan_contents_dirs (s : string) (contents : list ContentFile) :
  scan_contents s (filter is_dir contents) = scan_contents s contents.
Proof.
  induction contents as [|x contents IH]; [reflexivity|].
  cbn [filter]. destruct (is_dir x) eqn:Hd; cbn [scan_contents].
  - now rewrite IH.
  - unfold dir_named. rewrite Hd. exact IH.
Qed.

Lemma follower_cons_view (repo : Repo) (s : string) (rest : list string)
  (base : string) :
  _find_strict_sequence_from_path repo (s :: rest) base =
  match scan_contents s (dir_view repo base) with
  | Some item =>
      after [base] (_find_strict_sequence_from_path repo rest (path item))
  | None => (Ok None, [base])
  end.
Proof.
  rewrite follower_cons. unfold dir_view.
  destruct (repo base) as [contents|e]; [|reflexivity].
  rewrite scan_contents_dirs.
  destruct (scan_contents s contents); reflexivity.
Qed.

Lemma follower_view_ext (repo1 repo2 : Repo) (segs : list string) :
  (forall p, dir_view repo1 p = dir_view repo2 p) ->
  forall base,
    _find_strict_sequence_from_path repo1 segs base
    = _find_strict_sequence_from_path repo2 segs base.
Proof.
  intros Hview. induction segs as [|s rest IH]; intros base; [reflexivity|].
  rewrite !follower_cons_view, Hview.
  destruct (scan_contents s (dir_view repo2 base)) as [item|]; [|reflexivity].
  now rewrite IH.
Qed.

Lemma stage1_dirs (repo : Repo) (s : string) (rest : list string)
  (contents : list ContentFile) :
  stage1 repo s rest (filter is_dir contents) = stage1 repo s rest contents.
Proof.
  induction contents as [|x contents IH]; [reflexivity|].
  cbn [filter]. destruct (is_dir x) eqn:Hd.
  - rewrite !stage1_cons, IH. reflexivity.
  - rewrite (stage1_cons repo s rest x contents).
    unfold dir_named. rewrite Hd. exact IH.
Qed.

Lemma stage2_dirs (recur : string -> Py (option string))
  (contents : list ContentFile) :
  stage2 recur (filter is_dir contents) = stage2 recur contents.
Proof.
  induction contents as [|x contents IH]; [reflexivity|].
  cbn [filter]. destruct (is_dir x) eqn:Hd.
  - rewrite !stage2_cons, IH. reflexivity.
  - rewrite (stage2_cons recur x contents), Hd. exact IH.
Qed.

Lemma stage1_view_ext (repo1 repo2 : Repo) (s : string) (rest : list string)
  (contents : list ContentFile) :
  (forall p, dir_view repo1 p = dir_view repo2 p) ->
  stage1 repo1 s rest contents = stage1 repo2 s rest contents.
Proof.
  intros Hview. induction contents as [|x contents IH]; [reflexivity|].
  rewrite !stage1_cons, IH.
  now rewrite (follower_view_ext repo1 repo2 rest Hview).
Qed.

Lemma hunter_cons_view (fuel : nat) (repo : Repo) (s : string)
  (rest : list string) (root : string) :
  find_target_sequence_globally (S fuel) repo (s :: rest) root =
  after [root]
    match value (stage1 repo s rest (dir_view repo root)) with
    | Ok None =>
        after (listed (stage1 repo s rest (dir_view repo root)))
          (stage2 (find_target_sequence_globally fuel repo (s :: rest))
             (dir_view repo root))
    | _ => stage1 repo s rest (dir_view repo root)
    end.
Proof.
  unfold dir_view. destruct (repo root) as [contents|e] eqn:Hroot.
  - rewrite (hunter_entries _ _ _ _ _ _ Hroot), stage1_dirs, stage2_dirs.
    reflexivity.
  - now rewrite (hunter_fault _ _ _ _ _ _ Hroot).
Qed.

Lemma hunter_view_ext (repo1 repo2 : Repo) (segs : list string) :
  (forall p, dir_view repo1 p = dir_view repo2 p) ->
  forall fuel root,
    find_target_sequence_globally fuel repo1 segs root
    = find_target_sequence_globally fuel repo2 segs root.
Proof.
  intros Hview. induction fuel as [|fuel IH]; intros root; [reflexivity|].
  destruct segs as [|s rest]; [reflexivity|].
  rewrite !hunter_cons_view, Hview.
  rewrite (stage1_view_ext repo1 repo2 s rest _ Hview).
  destruct (value (stage1 repo2 s rest (dir_view repo2 root))) as [[p|]| |];
    try reflexivity.
  do 2 f_equal. apply stage2_ext. intros item _ _. apply IH.
Qed.

(** X2. Both searches depend on a repository only through the directory
    entries of its listings: two repositories whose listings agree on the
    directory entries (files, symlinks and submodules left aside, a listing
    that faults counting as one without entries) get the same answers after
    the same listings. *)
Theorem search_depends_on_directories_only :
  forall (repo1 repo2 : Repo),
    (forall p, dir_view repo1 p = dir_view repo2 p) ->
    (forall segs base,
        _find_strict_sequence_from_path repo1 segs base
        = _find_strict_sequence_from_path repo2 segs base)
    /\ (forall fuel segs root,
           find_target_sequence_globally fuel repo1 segs root
           = find_target_sequence_globally fuel repo2 segs root).
Proof.
  intros repo1 repo2 Hview. split.
  - intros segs base. now apply follower_view_ext.
  - intros fuel segs root. now apply hunter_view_ext.
Qed.

Lemma fault_as_empty_view (repo : Repo) (p : string) :
  dir_view (fault_as_empty repo) p = dir_view repo p.
Proof. unfold dir_view, fault_as_empty. now destruct (repo p). Qed.

(** X3. A directory that cannot be listed (absent, forbidden, rate
    limited) is to the search what an empty directory is: replacing every
    faulting listing by an empty one changes neither an answer nor the
    listings made.  Absence and inaccessibility cannot be told apart from
    the result. *)
Theorem fault_is_an_empty_directory :
  forall (repo : Repo),
    (forall segs base,
        _find_strict_sequence_from_path (fault_as_empty repo) segs base
        = _find_strict_sequence_from_path repo segs base)
    /\ (forall fuel segs root,
           find_target_sequence_globally fuel (fault_as_empty repo) segs root
           = find_target_sequence_globally fuel repo segs root).
Proof.
  intros repo. split.
  - intros segs base. apply follower_view_ext, fault_as_empty_view.
  - intros fuel segs root. apply hunter_view_ext, fault_as_empty_view.
Qed.

Lemma filter_twice {A} (f : A -> bool) (l : list A) :
  filter f (filter f l) = filter f l.
Proof.
  induction l as [|a l IH]; [reflexivity|].
  cbn [filter]. destruct (f a) eqn:E; [|exact IH].
  cbn [filter]. now rewrite E, IH.
Qed.

Lemma only_dirs_view (repo : Repo) (p : string) :
  dir_view (only_dirs repo) p = dir_view repo p.
Proof.
  unfold dir_view, only_dirs. destruct (repo p); [apply filter_twice|].
  reflexivity.
Qed.

Lemma search_depends_on_directories_only_witness :
  (forall segs base,
      _find_strict_sequence_from_path (only_dirs (repo_of resources_tree))
        segs base
      = _find_strict_sequence_from_path (repo_of resources_tree) segs base)
  /\ (forall fuel segs root,
         find_target_sequence_globally fuel (only_dirs (repo_of resources_tree))
           segs root
         = find_target_sequence_globally fuel (repo_of resources_tree)
             segs root).
Proof.
  apply (search_depends_on_directories_only
           (only_dirs (repo_of resources_tree)) (repo_of resources_tree)).
  intros p. apply only_dirs_view.
Defined.

(** ** The result is a directory with the last name of the sequence *)

Lemma produced_named_mono (repo : Repo) (l l' : list string) (n r : string) :
  (forall q, In q l -> In q l') ->
  produced_named repo l n r -> produced_named repo l' n r.
Proof.
  intros Hsub [q [items [item [Hq H]]]].
  exists q, items, item. split; [now apply Hsub|exact H].
Qed.

Lemma follower_produced_named (repo : Repo) (segs : list string) :
  forall (base r : string),
    segs <> [] ->
    value (_find_strict_sequence_from_path repo segs base) = Ok (Some r) ->
    produced_named repo
      (listed (_find_strict_sequence_from_path repo segs base))
      (last segs "") r.
Proof.
  induction segs as [|s rest IH]; intros base r Hne; [contradiction|].
  rewrite follower_cons.
  destruct (repo base) as [contents|e] eqn:Hbase; [|discriminate].
  destruct (scan_contents s contents) as [item|] eqn:Hscan; [|discriminate].
  cbn [value fst listed snd]. intros Hv.
  destruct (scan_contents_some _ _ _ Hscan) as [Hin Hd].
  destruct rest as [|s' rest'].
  - injection Hv as <-. exists base, contents, item.
    repeat split; [now left|exact Hbase|exact Hin|exact Hd].
  - change (last (s :: s' :: rest') "") with (last (s' :: rest') "").
    apply (produced_named_mono repo
             (listed (_find_strict_sequence_from_path repo (s' :: rest')
                        (path item)))).
    + intros q Hq. now right.
    + apply IH; [discriminate|exact Hv].
Qed.

Lemma stage1_produced_named (repo : Repo) (s : string) (rest : list string)
  (root r : string) :
  forall items : list ContentFile,
    (forall item, In item items -> produced_named repo [root] s (path item)
                                   \/ dir_named s item = false) ->
    value (stage1 repo s rest items) = Ok (Some r) ->
    produced_named repo (root :: listed (stage1 repo s rest items))
      (last (s :: rest) "") r.
Proof.
  induction items as [|item items IH]; intros Hroot; [discriminate|].
  assert (IH' : value (stage1 repo s rest items) = Ok (Some r) ->
                forall l,
                  produced_named repo
                    (root :: l ++ listed (stage1 repo s rest items))
                    (last (s :: rest) "") r).
  { intros Hv l.
    apply (produced_named_mono repo
             (root :: listed (stage1 repo s rest items))).
    - intros q [<-|Hq]; [now left|right]. apply in_or_app. now right.
    - apply IH; [|exact Hv]. intros x Hx. apply Hroot. now right. }
  rewrite stage1_cons. destruct (dir_named s item) eqn:Hd.
  - destruct rest as [|s' rest'].
    + cbn [value fst listed snd last]. intros [= <-].
      destruct (Hroot item (or_introl eq_refl)) as [H|H]; [exact H|congruence].
    + cbv zeta. unfold succeeded.
      destruct (follower_returns repo (s' :: rest') (path item)) as [r0 Hr0].
      rewrite Hr0. destruct (truthy r0) eqn:Ht.
      * intros Hv.
        change (last (s :: s' :: rest') "") with (last (s' :: rest') "").
        apply (produced_named_mono repo
                 (listed (_find_strict_sequence_from_path repo (s' :: rest')
                            (path item)))).
        -- intros q Hq. now right.
        -- apply follower_produced_named; [discriminate|exact Hv].
      * rewrite value_after, listed_after. intros Hv. exact (IH' Hv _).
  - intros Hv. exact (IH' Hv []).
Qed.

Lemma stage2_produced_named (repo : Repo)
  (recur : string -> Py (option string)) (n r : string) :
  (forall p, value (recur p) = Ok (Some r) ->
             produced_named repo (listed (recur p)) n r) ->
  forall items : list ContentFile,
    value (stage2 recur items) = Ok (Some r) ->
    produced_named repo (listed (stage2 recur items)) n r.
Proof.
  intros Hrec. induction items as [|item items IH]; [discriminate|].
  rewrite stage2_cons. destruct (is_dir item); [|exact IH].
  destruct (value (recur (path item))) as [r0|e|] eqn:Hv0.
  - destruct (truthy r0).
    + intros Hv. now apply Hrec.
    + rewrite value_after, listed_after. intros Hv.
      apply (produced_named_mono repo _ _ n r) with (2 := IH Hv).
      intros q Hq. apply in_or_app. now right.
  - rewrite Hv0. discriminate.
  - rewrite Hv0. discriminate.
Qed.

(** X4. A path returned by the hunter is the [path] of a directory entry
    that carries the last name of the sequence, taken from a listing the
    search made. *)
Theorem hunter_result_has_last_name :
  forall (repo : Repo) (s0 : string) (rest : list string) (fuel : nat)
         (root r : string),
    value (find_target_sequence_globally fuel repo (s0 :: rest) root)
    = Ok (Some r) ->
    produced_named repo
      (listed (find_target_sequence_globally fuel repo (s0 :: rest) root))
      (last (s0 :: rest) "") r.
Proof.
  intros repo s0 rest fuel root r. revert root.
  induction fuel as [|fuel IH]; intros root; [discriminate|].
  destruct (repo root) as [contents|e] eqn:Hroot.
  - rewrite (hunter_entries _ _ _ _ _ _ Hroot), value_after, listed_after.
    cbn [app].
    assert (H1 : value (stage1 repo s0 rest contents) = Ok (Some r) ->
                 produced_named repo
                   (root :: listed (stage1 repo s0 rest contents))
                   (last (s0 :: rest) "") r).
    { apply stage1_produced_named. intros item Hin.
      destruct (dir_named s0 item) eqn:Hd; [left|now right].
      exists root, contents, item.
      repeat split; [now left|exact Hroot|exact Hin|exact Hd]. }
    destruct (stage1_returns repo s0 rest contents) as [r0 Hr0]. rewrite Hr0.
    destruct r0 as [p|].
    + intros Hv. now apply H1.
    + rewrite value_after, listed_after. intros Hv.
      apply (produced_named_mono repo
               (listed (stage2 (find_target_sequence_globally fuel repo
                                  (s0 :: rest)) contents))).
      * intros q Hq. right. apply in_or_app. now right.
      * now apply stage2_produced_named.
  - rewrite (hunter_fault _ _ _ _ _ _ Hroot). discriminate.
Qed.

Lemma hunter_result_has_last_name_witness :
  produced_named (repo_of resources_tree)
    (listed (find_target_sequence_globally 5 (repo_of resources_tree)
               ["resources"; "data"] ""))
    "data" "lib/resources/data".
Proof.
  apply (hunter_result_has_last_name (repo_of resources_tree) "resources"
           ["data"] 5 "" "lib/resources/data").
  reflexivity.
Defined.

(** ** Not found means: no occurrence *)

(** X5. On a finite, well-formed tree [locateSequence] answers [None]
    exactly when the sequence occurs nowhere in the tree, and a path it
    returns is the end of an occurrence. *)
Theorem not_found_iff_no_occurrence :
  forall (repo : Repo) (ts : list Tree) (s0 : string) (rest : list string)
         (fuel : nat),
    serves repo "" ts ->
    well_formed ts = true ->
    forest_height ts < fuel ->
    (value (locateSequence fuel repo (s0 :: rest)) = Ok None
     <-> occurrences (s0 :: rest) ts = [])
    /\ (forall P,
           value (locateSequence fuel repo (s0 :: rest)) = Ok (Some P) ->
           exists d, In (d, P) (occurrences (s0 :: rest) ts)).
Proof.
  intros repo ts s0 rest fuel Hs Hwf Hf.
  unfold well_formed in Hwf.
  apply andb_prop in Hwf. destruct Hwf as [Hwf Hdeep].
  apply andb_prop in Hwf. destruct Hwf as [Hpaths _].
  unfold locateSequence.
  rewrite (hunter_on_tree repo s0 rest fuel "" ts Hs Hpaths (or_intror Hdeep) Hf).
  unfold first_occurrence.
  destruct (occurrences (s0 :: rest) ts) as [|[d p] l].
  - split; [now split|discriminate].
  - split; [split; discriminate|].
    cbn. intros P [= <-]. exists d. now left.
Qed.

Lemma not_found_iff_no_occurrence_witness :
  (value (locateSequence 5 (repo_of resources_tree) ["resources"; "lang"])
   = Ok None
   <-> occurrences ["resources"; "lang"] resources_tree = [])
  /\ (forall P,
         value (locateSequence 5 (repo_of resources_tree)
                  ["resources"; "lang"]) = Ok (Some P) ->
         exists d, In (d, P) (occurrences ["resources"; "lang"] resources_tree)).
Proof.
  apply (not_found_iff_no_occurrence (repo_of resources_tree) resources_tree
           "resources" ["lang"] 5).
  - exact resources_tree_served.
  - reflexivity.
  - cbn. lia.
Defined.

(** ** The number of listings of a hunt *)

Lemma stage1_budget (repo : Repo) (s : string) (rest : list string)
  (items : list ContentFile) :
  List.length (listed (stage1 repo s rest items))
  <= List.length (filter is_dir items) * List.length rest.
Proof.
  induction items as [|item items IH]; [cbn; lia|].
  rewrite stage1_cons. unfold dir_named. cbn [filter].
  destruct (is_dir item); cbn [andb List.length]; [|exact IH].
  destruct (String.eqb (name item) s); [|lia].
  destruct rest as [|s' rest']; [cbn; lia|].
  cbv zeta.
  pose proof (follower_budget repo (s' :: rest') (path item)) as Hf.
  destruct (succeeded _); [lia|].
  rewrite listed_after, length_app. lia.
Qed.

Lemma dirs_length_cons (t : Tree) (ts : list Tree) :
  List.length (dirs (t :: ts)) =
  (if is_dir (entry t) then S (List.length (dirs (kids t))) else 0)
  + List.length (dirs ts).
Proof.
  rewrite dirs_cons, length_app. f_equal.
  destruct (is_dir (entry t)) eqn:Hd.
  - now rewrite (tree_dirs_dir t Hd).
  - now rewrite (tree_dirs_other t Hd).
Qed.

Lemma stage2_budget (recur : string -> Py (option string)) (n : nat) :
  forall ts : list Tree,
    (forall t, In t ts -> is_dir (entry t) = true ->
               List.length (listed (recur (path (entry t))))
               <= 1 + List.length (dirs (kids t)) * S n) ->
    List.length (listed (stage2 recur (map entry ts)))
    + List.length (filter is_dir (map entry ts)) * n
    <= List.length (dirs ts) * S n.
Proof.
  induction ts as [|t ts IH]; intros Hrec; [cbn; lia|].
  assert (IH' : List.length (listed (stage2 recur (map entry ts)))
                + List.length (filter is_dir (map entry ts)) * n
                <= List.length (dirs ts) * S n)
    by (apply IH; intros u Hu; apply Hrec; now right).
  cbn [map filter]. rewrite stage2_cons, dirs_length_cons.
  destruct (is_dir (entry t)) eqn:Hd; [|exact IH'].
  specialize (Hrec t (or_introl eq_refl) Hd).
  cbn [List.length].
  assert (Hlen : List.length
                   (listed
                      match value (recur (path (entry t))) with
                      | Ok r =>
                          if truthy r then recur (path (entry t))
                          else after (listed (recur (path (entry t))))
                                 (stage2 recur (map entry ts))
                      | _ => recur (path (entry t))
                      end)
                 <= List.length (listed (recur (path (entry t))))
                    + List.length (listed (stage2 recur (map entry ts)))).
  { destruct (value (recur (path (entry t)))) as [r| |]; try lia.
    destruct (truthy r); [lia|]. rewrite listed_after, length_app. lia. }
  nia.
Qed.

(** X6. On a tree the hunter makes at most one listing for the search
    root and, for each directory of the tree, as many listings as the
    sequence has segments: the number of [get_contents] calls is linear in
    the number of directories, whatever the recursion budget. *)
Theorem hunter_listing_budget :
  forall (repo : Repo) (segs : list string) (fuel : nat) (root : string)
         (ts : list Tree),
    serves repo root ts ->
    List.length (listed (find_target_sequence_globally fuel repo segs root))
    <= 1 + List.length (dirs ts) * List.length segs.
Proof.
  intros repo segs. induction fuel as [|fuel IH]; intros root ts Hs;
    [cbn; lia|].
  destruct segs as [|s rest]; [cbn; lia|].
  rewrite (hunter_entries _ _ _ _ _ _ (serves_listing _ _ _ Hs)), listed_after.
  cbn [app List.length].
  pose proof (stage1_budget repo s rest (map entry ts)) as H1.
  pose proof (stage2_budget (find_target_sequence_globally fuel repo (s :: rest))
                (List.length rest) ts) as H2.
  assert (H2' : List.length
                  (listed (stage2 (find_target_sequence_globally fuel repo
                                     (s :: rest)) (map entry ts)))
                + List.length (filter is_dir (map entry ts)) * List.length rest
                <= List.length (dirs ts) * S (List.length rest)).
  { apply H2. intros t Hin Hd. apply IH.
    now apply (serves_kids repo root ts). }
  destruct (value (stage1 repo s rest (map entry ts))) as [[p|]| |];
    try rewrite listed_after, length_app; nia.
Qed.

Lemma hunter_listing_budget_witness :
  List.length
    (listed (find_target_sequence_globally 5 (repo_of two_depths_tree)
               ["a"; "b"] ""))
  <= 1 + List.length (dirs two_depths_tree) * List.length ["a"; "b"].
Proof.
  apply (hunter_listing_budget (repo_of two_depths_tree) ["a"; "b"] 5 ""
           two_depths_tree).
  exact two_depths_tree_served.
Defined.

(** * The token and the repository name *)

Lemma truthy_true (r : option string) :
  truthy r = true -> exists t, r = Some t /\ t <> "".
Proof.
  destruct r as [t|]; [|discriminate]. intros H. exists t.
  split; [reflexivity|]. now apply (truthy_some (Some t)).
Qed.

(** X7. [get_github_token] never hands out an empty token: whatever the
    token file holds, however lines are trimmed and whatever [GITHUB_PAT]
    is set to, the result is [None] or a non-empty string. *)
Theorem token_never_empty :
  forall (strip : string -> string) (w : Surroundings) (token : string),
    fst (get_github_token strip w) = Some token -> token <> "".
Proof.
  intros strip w token. unfold get_github_token, token_from_file.
  assert (Henv : forall out : list notice,
             fst (if truthy (GITHUB_PAT w)
                  then (GITHUB_PAT w, out ++ [UsingTokenFromEnvironment])
                  else (None, out ++ [NoTokenFound])) = Some token ->
             token <> "").
  { intros out. destruct (truthy (GITHUB_PAT w)) eqn:Ht; [|discriminate].
    cbn [fst]. intros H.
    destruct (truthy_true _ Ht) as [t [Ht1 Ht2]]. congruence. }
  destruct (token_file_state w) as [| |line]; try apply Henv.
  cbv zeta. destruct (truthy (Some (strip line))) eqn:Ht; [|apply Henv].
  cbn [fst]. intros [= <-]. now apply (truthy_some (Some (strip line))).
Qed.

Lemma token_never_empty_witness :
  fst (get_github_token (fun s => s)
         (mkSurroundings (FirstLine "") (Some "ghp_secret")))
  = Some "ghp_secret"
  /\ "ghp_secret" <> "".
Proof.
  split; [reflexivity|].
  apply (token_never_empty (fun s => s)
           (mkSurroundings (FirstLine "") (Some "ghp_secret")) "ghp_secret").
  reflexivity.
Defined.

(** X8. The token file comes first and the environment second.  A file
    whose first line is not blank decides the token, whatever [GITHUB_PAT]
    holds.  A file that is absent, cannot be read, or has a blank first
    line does not stop the function: the token is then [GITHUB_PAT] if that
    is set and not empty, and [None] otherwise. *)
Theorem token_file_before_environment :
  forall (strip : string -> string),
    (forall line pat,
        strip line <> "" ->
        get_github_token strip (mkSurroundings (FirstLine line) pat)
        = (Some (strip line), [UsingTokenFromFile]))
    /\ (forall f pat,
           f = Absent \/ f = Unreadable
           \/ (exists line, f = FirstLine line /\ strip line = "") ->
           fst (get_github_token strip (mkSurroundings f pat))
           = if truthy pat then pat else None).
Proof.
  intros strip. split.
  - intros line pat Hne. unfold get_github_token, token_from_file.
    cbn [token_file_state truthy]. apply String.eqb_neq in Hne.
    now rewrite Hne.
  - intros f pat H. unfold get_github_token, token_from_file.
    cbn [token_file_state GITHUB_PAT].
    destruct H as [->|[->|[line [-> Hblank]]]].
    + now destruct (truthy pat).
    + now destruct (truthy pat).
    + cbv zeta. rewrite Hblank. cbn [truthy String.eqb negb].
      now destruct (truthy pat).
Qed.

Lemma has_slash_app (a b : string) :
  has_slash (a ++ b) = has_slash a || has_slash b.
Proof.
  induction a as [|c a IH]; [reflexivity|].
  cbn [append has_slash]. rewrite IH. apply orb_assoc.
Qed.

(** X9. The repository name [main] asks the forge for always has the form
    [owner/name]: a name without a slash gets the organization in front, a
    name with a slash is taken as it is, and so applying the rule again
    changes nothing. *)
Theorem target_repo_full_name_qualified :
  forall (repo_name : string),
    has_slash (target_repo_full_name repo_name) = true
    /\ (has_slash repo_name = true ->
        target_repo_full_name repo_name = repo_name)
    /\ (has_slash repo_name = false ->
        target_repo_full_name repo_name
        = (ORGANIZATION_NAME ++ "/" ++ repo_name)%string)
    /\ target_repo_full_name (target_repo_full_name repo_name)
       = target_repo_full_name repo_name.
Proof.
  intros n.
  assert (H1 : has_slash (target_repo_full_name n) = true).
  { unfold target_repo_full_name. destruct (has_slash n) eqn:E; cbn [negb].
    - exact E.
    - rewrite has_slash_app. reflexivity. }
  split; [exact H1|]. split; [|split].
  - intros E. unfold target_repo_full_name. now rewrite E.
  - intros E. unfold target_repo_full_name. now rewrite E.
  - unfold target_repo_full_name at 1. now rewrite H1.
Qed.

(** * The scan of the repositories *)

Lemma add_name_in (n m : string) (names : list string) :
  In n (add_name m names) <-> n = m \/ In n names.
Proof.
  unfold add_name. destruct (existsb (String.eqb m) names) eqn:E.
  - split; [now right|]. intros [->|H]; [|exact H].
    apply existsb_exists in E. destruct E as [x [Hx Heq]].
    apply String.eqb_eq in Heq. now subst x.
  - rewrite in_app_iff. cbn [In]. split.
    + intros [H|[<-|[]]]; [now right|now left].
    + intros [->|H]; [right; now left|now left].
Qed.

Lemma collect_subfolders_names (items : list ContentFile) :
  forall (names : list string) (found : bool) (n : string),
    In n (fst (collect_subfolders items names found))
    <-> In n names
        \/ exists item, In item items /\ is_dir item = true /\ name item = n.
Proof.
  induction items as [|x items IH]; intros names found n.
  - cbn. split; [now left|]. intros [H|[item [[] _]]]. exact H.
  - cbn [collect_subfolders]. destruct (is_dir x) eqn:Hd; rewrite IH.
    + rewrite add_name_in. split.
      * intros [[->|H]|[item [Hin H]]].
        -- right. exists x. repeat split; [now left|exact Hd].
        -- now left.
        -- right. exists item. split; [now right|exact H].
      * intros [H|[item [[<-|Hin] [Hdi Hn]]]].
        -- left. now right.
        -- left. left. now symmetry.
        -- right. exists item. now repeat split.
    + split.
      * intros [H|[item [Hin H]]]; [now left|].
        right. exists item. split; [now right|exact H].
      * intros [H|[item [[<-|Hin] [Hdi Hn]]]]; [now left|congruence|].
        right. exists item. now repeat split.
Qed.

Lemma list_target_names (r : Repository) (p : string) (names : list string)
  (n : string) :
  In n (fst (list_target r p names))
  <-> In n names
      \/ exists items item,
           repo_contents r p = Entries items /\ In item items
           /\ is_dir item = true /\ name item = n.
Proof.
  unfold list_target. destruct (repo_contents r p) as [items|e].
  - pose proof (collect_subfolders_names items names false n) as H.
    destruct (collect_subfolders items names false) as [names' found].
    cbn [fst] in *. rewrite H. split.
    + intros [Hn|[item Hi]]; [now left|]. right. now exists items, item.
    + intros [Hn|[items' [item [[= <-] Hi]]]]; [now left|].
      right. now exists item.
  - assert (Hfault : forall out : list printed,
               In n (fst (names, out))
               <-> In n names
                   \/ exists items item,
                        @Fault e = Entries items /\ In item items
                        /\ is_dir item = true /\ name item = n).
    { intros out. cbn [fst]. split; [now left|].
      intros [H|[items [item [H _]]]]; [exact H|discriminate]. }
    destruct e as [status|]; apply Hfault.
Qed.

Lemma scan_repo_names (fuel : nat) (r : Repository)
  (names names' : list string) (out : list printed) :
  scan_repo fuel r names = Some (names', out) ->
  forall n, In n names' <-> In n names \/ contributes fuel r n.
Proof.
  unfold scan_repo, contributes.
  destruct (value (find_target_sequence_globally fuel (repo_contents r)
                     TARGET_PATH_SEGMENTS "")) as [[p|]|e|] eqn:Hv.
  - destruct (truthy (Some p)) eqn:Ht.
    + pose proof (list_target_names r p names) as Hl.
      destruct (list_target r p names) as [names1 out1]. cbn [fst] in Hl.
      intros [= <- <-] n. rewrite Hl. split.
      * intros [H|[items [item H]]]; [now left|right].
        exists p, items, item. split; [reflexivity|].
        split; [now apply (truthy_some (Some p))|exact H].
      * intros [H|[p' [items [item [[= <-] [_ H]]]]]]; [now left|right].
        now exists items, item.
    + intros [= <- <-] n. split; [now left|].
      intros [H|[p' [items [item [[= <-] [Hne _]]]]]]; [exact H|].
      cbn in Ht. apply negb_false_iff, String.eqb_eq in Ht. contradiction.
  - intros [= <- <-] n. split; [now left|].
    intros [H|[p' [items [item [H _]]]]]; [exact H|discriminate].
  - assert (Hskip : forall o : list printed,
               Some (names, o) = Some (names', out) ->
               forall n,
                 In n names'
                 <-> In n names
                     \/ exists p items item,
                          @Err (option string) e = Ok (Some p) /\ p <> ""
                          /\ repo_contents r p = Entries items
                          /\ In item items /\ is_dir item = true
                          /\ name item = n).
    { intros o [= <- _] n. split; [now left|].
      intros [H|[p' [items [item [H _]]]]]; [exact H|discriminate]. }
    destruct e as [status|]; apply Hskip.
  - discriminate.
Qed.

Lemma scan_repos_names (fuel repo_count : nat) (repos : list Repository) :
  forall (processed : nat) (names names' : list string) (out : list printed),
    scan_repos fuel repo_count repos processed names = Some (names', out) ->
    forall n,
      In n names'
      <-> In n names \/ exists r, In r repos /\ contributes fuel r n.
Proof.
  induction repos as [|r repos IH]; intros processed names names' out.
  - intros [= <- _] n. split; [now left|].
    intros [H|[r [[] _]]]. exact H.
  - cbn [scan_repos]. cbv zeta.
    destruct (scan_repo fuel r names) as [[names1 out1]|] eqn:H1;
      [|discriminate].
    destruct (scan_repos fuel repo_count repos (S processed) names1)
      as [[names2 out2]|] eqn:H2; [|discriminate].
    intros [= <- _] n.
    rewrite (IH _ _ _ _ H2 n), (scan_repo_names _ _ _ _ _ H1 n). split.
    + intros [[H|H]|[r' [Hin H]]].
      * now left.
      * right. exists r. split; [now left|exact H].
      * right. exists r'. split; [now right|exact H].
    + intros [H|[r' [[<-|Hin] H]]].
      * left. now left.
      * left. now right.
      * right. now exists r'.
Qed.

(** X10. What the scan collects.  After the loop over the repositories a
    name is in the set exactly if it was there before or some scanned
    repository contributes it: the search found a non-empty path in that
    repository, that path could be listed, and the name is that of a
    directory entry of the listing.  In particular the loop only ever adds
    to the set, and a repository whose search fails or whose found path
    cannot be listed adds nothing. *)
Theorem scan_collects_exactly :
  forall (fuel repo_count : nat) (repos_to_scan : list Repository)
         (processed_repo_count : nat) (names names' : list string)
         (out : list printed),
    scan_repos fuel repo_count repos_to_scan processed_repo_count names
    = Some (names', out) ->
    forall n,
      In n names'
      <-> In n names
          \/ exists r, In r repos_to_scan /\ contributes fuel r n.
Proof.
  intros fuel repo_count repos processed names names' out H.
  exact (scan_repos_names fuel repo_count repos processed names names' out H).
Qed.

Lemma scan_collects_exactly_witness :
  scan_repos 5 1 [repository_of "packs" resources_tree] 0 []
  = Some (["textures"; "sounds"],
          [Processing (Some (1, 1)) "YUNG-GANG/packs";
           FoundAt "lib/resources/data"])
  /\ (In "sounds" ["textures"; "sounds"]
      <-> In "sounds" []
          \/ exists r, In r [repository_of "packs" resources_tree]
                       /\ contributes 5 r "sounds").
Proof.
  split; [reflexivity|].
  apply (scan_collects_exactly 5 1 [repository_of "packs" resources_tree] 0
           [] ["textures"; "sounds"]
           [Processing (Some (1, 1)) "YUNG-GANG/packs";
            FoundAt "lib/resources/data"]).
  reflexivity.
Defined.

(** X11. The collected set does not depend on the order in which the
    repositories are scanned, nor on the counters shown in the progress
    lines: two scans over the same repositories, started from the same
    set, end with the same names. *)
Theorem scan_order_irrelevant :
  forall (fuel count1 count2 : nat) (repos1 repos2 : list Repository)
         (processed1 processed2 : nat) (names names1 names2 : list string)
         (out1 out2 : list printed),
    (forall r, In r repos1 <-> In r repos2) ->
    scan_repos fuel count1 repos1 processed1 names = Some (names1, out1) ->
    scan_repos fuel count2 repos2 processed2 names = Some (names2, out2) ->
    forall n, In n names1 <-> In n names2.
Proof.
  intros fuel count1 count2 repos1 repos2 processed1 processed2
         names names1 names2 out1 out2 Hsame H1 H2 n.
  rewrite (scan_repos_names _ _ _ _ _ _ _ H1 n),
          (scan_repos_names _ _ _ _ _ _ _ H2 n).
  split; (intros [H|[r [Hin H]]]; [now left|right; exists r]);
    (split; [now apply Hsame|exact H]).
Qed.

Lemma scan_order_irrelevant_witness :
  In "sounds" ["textures"; "sounds"] <-> In "sounds" ["textures"; "sounds"].
Proof.
  apply (scan_order_irrelevant 5 2 0
           [repository_of "packs" resources_tree;
            repository_of "depths" two_depths_tree]
           [repository_of "depths" two_depths_tree;
            repository_of "packs" resources_tree]
           0 7 [] ["textures"; "sounds"] ["textures"; "sounds"]
           [Processing (Some (1, 2)) "YUNG-GANG/packs";
            FoundAt "lib/resources/data";
            Processing (Some (2, 2)) "YUNG-GANG/depths"]
           [Processing None "YUNG-GANG/depths";
            Processing None "YUNG-GANG/packs";
            FoundAt "lib/resources/data"]).
  - intros r. cbn [In]. tauto.
  - reflexivity.
  - reflexivity.
Defined.

Lemma list_target_lines (r : Repository) (p : string) (names : list string) :
  processed_names (snd (list_target r p names)) = []
  /\ existsb is_skipping (snd (list_target r p names)) = false.
Proof.
  unfold list_target. destruct (repo_contents r p) as [items|e].
  - destruct (collect_subfolders items names false) as [names' found].
    now destruct found.
  - destruct e as [status|]; [destruct (Z.eqb status 404)|]; now split.
Qed.

Lemma scan_repo_lines (fuel : nat) (r : Repository)
  (names names' : list string) (out : list printed) :
  scan_repo fuel r names = Some (names', out) ->
  processed_names out = [] /\ existsb is_skipping out = false.
Proof.
  unfold scan_repo.
  destruct (hunter_no_raise (repo_contents r) TARGET_PATH_SEGMENTS fuel "")
    as [Hv|[v Hv]]; rewrite Hv; [discriminate|].
  destruct v as [p|]; [|now intros [= _ <-]].
  destruct (truthy (Some p)); [|now intros [= _ <-]].
  pose proof (list_target_lines r p names) as Hl.
  destruct (list_target r p names) as [names1 out1]. cbn [snd] in Hl.
  intros [= _ <-]. exact Hl.
Qed.

Lemma processed_names_app (l1 l2 : list printed) :
  processed_names (l1 ++ l2) = processed_names l1 ++ processed_names l2.
Proof. unfold processed_names. apply flat_map_app. Qed.

(** X12. The scan goes through every repository.  If no search runs out
    of the recursion budget, the loop comes to its end; every repository
    has its [Processing] line, once and in scan order; and no "Skipping"
    line is ever printed, because the search hands no exception to the
    loop. *)
Theorem scan_reaches_every_repository :
  forall (fuel repo_count : nat) (repos_to_scan : list Repository)
         (processed_repo_count : nat) (names : list string),
    (forall r, In r repos_to_scan ->
               value (find_target_sequence_globally fuel (repo_contents r)
                        TARGET_PATH_SEGMENTS "") <> OutOfFuel) ->
    exists names' out,
      scan_repos fuel repo_count repos_to_scan processed_repo_count names
      = Some (names', out)
      /\ processed_names out = map full_name repos_to_scan
      /\ existsb is_skipping out = false.
Proof.
  intros fuel repo_count repos.
  induction repos as [|r repos IH]; intros processed names Hfuel.
  - now exists names, [].
  - cbn [scan_repos]. cbv zeta.
    destruct (scan_repo fuel r names) as [[names1 out1]|] eqn:H1.
    + destruct (IH (S processed) names1) as [names2 [out2 [H2 [Hp Hs]]]].
      { intros r' Hr'. apply Hfuel. now right. }
      rewrite H2. exists names2. eexists. split; [reflexivity|].
      destruct (scan_repo_lines _ _ _ _ _ H1) as [Hp1 Hs1].
      cbn [processed_names flat_map app map].
      change (flat_map _ (out1 ++ out2)) with (processed_names (out1 ++ out2)).
      rewrite processed_names_app, Hp1, Hp. split; [reflexivity|].
      cbn [existsb is_skipping orb]. now rewrite existsb_app, Hs1, Hs.
    + exfalso. apply (Hfuel r (or_introl eq_refl)).
      unfold scan_repo in H1.
      destruct (value (find_target_sequence_globally fuel (repo_contents r)
                         TARGET_PATH_SEGMENTS "")) as [[p|]|e|];
        try reflexivity; try discriminate.
      * destruct (truthy (Some p)); [|discriminate].
        now destruct (list_target r p names).
      * now destruct e.
Qed.

Lemma scan_reaches_every_repository_witness :
  exists names' out,
    scan_repos 3 0
      [mkRepository "locked" "YUNG-GANG/locked" forbidden_repo;
       repository_of "twins" twin_tree] 0 []
    = Some (names', out)
    /\ processed_names out
       = map full_name
           [mkRepository "locked" "YUNG-GANG/locked" forbidden_repo;
            repository_of "twins" twin_tree]
    /\ existsb is_skipping out = false.
Proof.
  apply (scan_reaches_every_repository 3 0
           [mkRepository "locked" "YUNG-GANG/locked" forbidden_repo;
            repository_of "twins" twin_tree] 0 []).
  intros r [<-|[<-|[]]] H; vm_compute in H; discriminate.
Defined.

(** ** Scanning a tree: the found folder can be listed *)






(** ** Scenarios of the scan *)

Example scan_two_repositories :
  scan_repos 5 2
    [repository_of "packs" resources_tree;
     mkRepository "locked" "YUNG-GANG/locked" forbidden_repo] 0 ["textures"]
  = Some (["textures"; "sounds"],
          [Processing (Some (1, 2)) "YUNG-GANG/packs";
           FoundAt "lib/resources/data";
           Processing (Some (2, 2)) "YUNG-GANG/locked"]).
Proof. reflexivity. Qed.

Example token_from_blank_file :
  get_github_token (fun s => s) (mkSurroundings (FirstLine "") None)
  = (None, [TokenFileEmpty; NoTokenFound]).
Proof. reflexivity. Qed.

(** * Two more facts about the search *)

(** X14. On a tree whose sibling directories have distinct names, the
    follower returns the end of the chain of segments below its starting
    path when that chain is there, and [None] when it is not. *)
Theorem follower_follows_the_chain :
  forall (repo : Repo) (segments : list string) (base_path : string)
         (ts : list Tree),
    segments <> [] ->
    serves repo base_path ts ->
    distinct (dir_names ts) = true ->
    forallb names_distinct ts = true ->
    value (_find_strict_sequence_from_path repo segments base_path)
    = Ok (head (flat_map (chain_ends segments) ts)).
Proof.
  intros repo segments base_path ts Hne Hs Hd Hdeep.
  now apply follower_on_tree.
Qed.

Lemma follower_follows_the_chain_witness :
  value (_find_strict_sequence_from_path (repo_of resources_tree)
           ["lib"; "resources"; "data"] "")
  = Ok (Some "lib/resources/data").
Proof.
  apply (follower_follows_the_chain (repo_of resources_tree)
           ["lib"; "resources"; "data"] "" resources_tree).
  - discriminate.
  - exact resources_tree_served.
  - reflexivity.
  - reflexivity.
Defined.




